(** * cspjs: the state machine runtime of the [task] macro

    A shallow embedding of [src/state_machine.js]: the [State] record, the
    [StateMachine] driver with its scheduling primitives, the unwind
    protocol, the control API and the [JumpTable] used for compiled
    [switch] statements, followed by the properties proved about them.

    Conventions of the embedding.
    - JavaScript numbers that hold step ids and block sizes are integers
      of small magnitude; they are modelled by [Z] (no rounding occurs
      below 2^53).
    - A JavaScript array used as a stack is a [list] in array order:
      [push] appends at the end and [pop] removes the last element.
    - Objects used as dictionaries with integer keys are [gmap Z _].
    - Objects with identity (the closures returned by [thenTo], the
      [JumpTable] instances) live in stores and are named by their index.
    - [process.nextTick] is a FIFO queue of pending callbacks.
    - Foreign code (the final callback, the functions registered as
      cleanup actions, [console.error]) is observed through a trace of
      events; it does not call back into the driver.
    - The compiled step function [fn] is a parameter: it maps what it can
      read (the driver state, its own state variables, its arguments) to
      the list of runtime calls it performs.  Continuations are called by
      the operations they were handed to, from the event loop.
    - An exception that nothing catches reaches the event loop, which
      records it and goes on. *)

From stdpp Require Import base gmap list strings pretty.

Open Scope Z_scope.

(** ** JavaScript values *)

Inductive value :=
  | VUndefined
  | VNull
  | VBool (b : bool)
  | VNum (n : Z)
  | VStr (s : string)
  | VError (msg : string)
  | VBuiltin (name : string).   (* a function of the engine, by its name *)

#[global] Instance value_eq_dec : EqDecision value.
Proof. solve_decision. Defined.

(** The truthiness test of [if (x)]. *)
Definition truthy (v : value) : bool :=
  match v with
  | VUndefined | VNull => false
  | VBool b => b
  | VNum n => negb (Z.eqb n 0)
  | VStr s => negb (String.eqb s "")
  | VError _ => true
  | VBuiltin _ => true
  end.

(** Thrown exceptions: [new Error(msg)], and the [TypeError] of a property
    access on [undefined] or [null]. *)
Inductive exn :=
  | JsError (msg : string)
  | TypeError.

#[global] Instance exn_eq_dec : EqDecision exn.
Proof. solve_decision. Defined.

(** ** JumpTable *)

Module JT.

Record JumpTable := mkJumpTable {
  id : Z;
  cases : list (list Z);
  blockSizes : list Z;
  stepIDs : gmap Z Z;
  beyondID : Z
}.

(** The inner loop: [for (j = 0; j < ci.length; ++j) stepIDs[ci[j]] = sum]. *)
Definition assign_cases (ci : list Z) (sum : Z) (stepIDs : gmap Z Z) : gmap Z Z :=
  foldl (fun m c => <[c := sum]> m) stepIDs ci.

(** The outer loop, from index [i], with [n] iterations left
    ([n = blockSizes.length - i]):
<<
    for (i = 0; i < blockSizes.length; ++i) {
        ci = cases[i];
        for (j = 0; j < ci.length; ++j) { this.stepIDs[ci[j]] = sum; }
        sum += 1 + blockSizes[i];
    }
>>
    [cases[i]] may be [undefined], in which case [ci.length] raises a
    [TypeError]. *)
Fixpoint build (cases : list (list Z)) (blockSizes : list Z)
    (n : nat) (i : nat) (sum : Z) (stepIDs : gmap Z Z) : option (gmap Z Z * Z) :=
  match n with
  | O => Some (stepIDs, sum)
  | S n' =>
      match cases !! i, blockSizes !! i with
      | Some ci, Some b =>
          build cases blockSizes n' (S i) (sum + (1 + b)) (assign_cases ci sum stepIDs)
      | _, _ => None
      end
  end.

(** [new JumpTable(sm, id, cases, blockSizes)]: [sum] starts at [id + 1],
    [stepIDs] empty, and [beyondID] is the final [sum]; [None] when the
    constructor throws. *)
Definition new (id : Z) (cases : list (list Z)) (blockSizes : list Z) : option JumpTable :=
  match build cases blockSizes (length blockSizes) 0 (id + 1) ∅ with
  | Some (m, sum) => Some (mkJumpTable id cases blockSizes m sum)
  | None => None
  end.

(** The message of the error thrown by [jumpToCase]. *)
Definition unhandled_case (caseVal : Z) (id : Z) : string :=
  "Unhandled case '" +:+ pretty caseVal +:+ "' at step " +:+ pretty id.

(** The sum of [1 + blockSizes[j]] over [j < k]. *)
Definition offset (blockSizes : list Z) (k : nat) : Z :=
  foldr Z.add 0 ((fun b => 1 + b) <$> take k blockSizes).

End JT.

(** ** Reading an Array under a runtime value

    [stepIDs] is a JavaScript Array, and [jumpToCase] reads
    [this.stepIDs[caseVal]] with whatever value the switch expression
    has.  The value is converted to a property key, its string; the
    canonical decimal string of an integer names the same property as
    that integer, under which the constructor stored the entry of a case
    label.  Any other string names a property by name: [length], which
    every Array has, or what the prototype chain of Arrays defines
    ([constructor], [push], ...).  That chain belongs to the engine, not
    to this repository: it is the parameter [proto]. *)

(** [String(v)], as it appears in a message and as a property key.  A
    native function prints as Node prints it; an [Error] with an empty
    message prints as its name. *)
Definition ToString (v : value) : string :=
  match v with
  | VUndefined => "undefined"
  | VNull => "null"
  | VBool true => "true"
  | VBool false => "false"
  | VNum n => pretty n
  | VStr s => s
  | VError msg => if String.eqb msg "" then "Error" else "Error: " +:+ msg
  | VBuiltin name => "function " +:+ name +:+ "() { [native code] }"
  end.

Definition digit (c : Ascii.ascii) : option Z :=
  let n := Z.of_nat (Ascii.nat_of_ascii c) in
  if Z.leb 48 n && Z.leb n 57 then Some (n - 48) else None.

Fixpoint digits (s : string) (acc : Z) : option Z :=
  match s with
  | EmptyString => Some acc
  | String c r =>
      match digit c with
      | Some d => digits r (10 * acc + d)
      | None => None
      end
  end.

(** The integer whose canonical decimal string is [s], if there is one:
    "11" and "-3" are, "", "-", "-0", "011", "1.0" and " 1" are not. *)
Definition integer_of_string (s : string) : option Z :=
  let parsed :=
    match s with
    | String c r =>
        if Ascii.eqb c (Ascii.ascii_of_nat 45)       (* the minus sign *)
        then Z.opp <$> digits r 0 else digits s 0
    | EmptyString => digits s 0
    end in
  match parsed with
  | Some z => if String.eqb (pretty z) s then Some z else None
  | None => None
  end.

Inductive property_key :=
  | KIndex (z : Z)       (* the property named by the decimal string of [z] *)
  | KName (s : string).  (* a property named by any other string *)

Definition ToPropertyKey (v : value) : property_key :=
  match v with
  | VNum n => KIndex n
  | _ =>
      match integer_of_string (ToString v) with
      | Some z => KIndex z
      | None => KName (ToString v)
      end
  end.

(** The [length] of the Array: one more than its largest array index (an
    integer from 0 to 2^32 - 2), 0 when it has none. *)
Definition array_length (stepIDs : gmap Z Z) : Z :=
  map_fold (fun k _ n => if Z.leb 0 k && Z.ltb k 4294967295 then Z.max n (k + 1) else n)
           0 stepIDs.

(** [stepIDs[key]]: [undefined] when there is no such property. *)
Definition array_get (proto : string -> option value) (stepIDs : gmap Z Z)
    (key : property_key) : value :=
  match key with
  | KIndex z => from_option VNum VUndefined (stepIDs !! z)
  | KName s =>
      if String.eqb s "length" then VNum (array_length stepIDs)
      else default VUndefined (proto s)
  end.

(** The methods that ECMAScript 5.1 (15.4.4 and 15.2.4) gives every
    Array through [Array.prototype] and [Object.prototype]; engines of
    later editions define more. *)
Definition es5_methods : list string :=
  ["toString"; "toLocaleString"; "concat"; "join"; "pop"; "push"; "reverse"; "shift";
   "slice"; "sort"; "splice"; "unshift"; "indexOf"; "lastIndexOf"; "every"; "some";
   "forEach"; "map"; "filter"; "reduce"; "reduceRight"; "valueOf"; "hasOwnProperty";
   "isPrototypeOf"; "propertyIsEnumerable"].

(** A prototype chain with these methods and [constructor], which is the
    function [Array]. *)
Definition es5_proto (s : string) : option value :=
  if String.eqb s "constructor" then Some (VBuiltin "Array")
  else if bool_decide (s ∈ es5_methods) then Some (VBuiltin s)
  else None.


(** ** State *)

(** The three kinds of frames on the unwind stack, as the [push...]
    methods create them.  A cleanup action is the closure over the
    foreign [(context, fn, args)] it was registered with. *)
Record action := mkAction { act_fn : nat; act_args : list value }.

Inductive frame :=
  | ErrorStep (step : Z)                           (* {isError: true, step: id} *)
  | CleanupAction (a : action)                     (* {cleanup: true, fn: ...} *)
  | CleanupStep (step : Z) (state : list value).   (* {cleanup: true, step: id, state: ...} *)

#[global] Instance action_eq_dec : EqDecision action.
Proof. solve_decision. Defined.

#[global] Instance frame_eq_dec : EqDecision frame.
Proof. solve_decision. Defined.

Record State := mkState {
  id : value;
  args : list value;
  err : value;
  unwinding : list frame;
  phi : list Z;
  installed_catches : gmap Z bool;
  waiting : Z;
  isFinished : bool;
  isUnwinding : bool;
  abort_with_error : value
}.

(** [new State()] *)
Definition State_new : State :=
  {| id := VNum 0; args := [VNull; VNull]; err := VNull; unwinding := [];
     phi := []; installed_catches := ∅; waiting := 0; isFinished := false;
     isUnwinding := false; abort_with_error := VNull |}.

Definition set_id (v : value) (s : State) : State :=
  mkState v (args s) (err s) (unwinding s) (phi s) (installed_catches s)
          (waiting s) (isFinished s) (isUnwinding s) (abort_with_error s).
Definition set_args (v : list value) (s : State) : State :=
  mkState (id s) v (err s) (unwinding s) (phi s) (installed_catches s)
          (waiting s) (isFinished s) (isUnwinding s) (abort_with_error s).
Definition set_err (v : value) (s : State) : State :=
  mkState (id s) (args s) v (unwinding s) (phi s) (installed_catches s)
          (waiting s) (isFinished s) (isUnwinding s) (abort_with_error s).
Definition set_unwinding (v : list frame) (s : State) : State :=
  mkState (id s) (args s) (err s) v (phi s) (installed_catches s)
          (waiting s) (isFinished s) (isUnwinding s) (abort_with_error s).
Definition set_phi (v : list Z) (s : State) : State :=
  mkState (id s) (args s) (err s) (unwinding s) v (installed_catches s)
          (waiting s) (isFinished s) (isUnwinding s) (abort_with_error s).
Definition set_installed_catches (v : gmap Z bool) (s : State) : State :=
  mkState (id s) (args s) (err s) (unwinding s) (phi s) v
          (waiting s) (isFinished s) (isUnwinding s) (abort_with_error s).
Definition set_waiting (v : Z) (s : State) : State :=
  mkState (id s) (args s) (err s) (unwinding s) (phi s) (installed_catches s)
          v (isFinished s) (isUnwinding s) (abort_with_error s).
Definition set_isFinished (v : bool) (s : State) : State :=
  mkState (id s) (args s) (err s) (unwinding s) (phi s) (installed_catches s)
          (waiting s) v (isUnwinding s) (abort_with_error s).
Definition set_isUnwinding (v : bool) (s : State) : State :=
  mkState (id s) (args s) (err s) (unwinding s) (phi s) (installed_catches s)
          (waiting s) (isFinished s) v (abort_with_error s).
Definition set_abort_with_error (v : value) (s : State) : State :=
  mkState (id s) (args s) (err s) (unwinding s) (phi s) (installed_catches s)
          (waiting s) (isFinished s) (isUnwinding s) v.

(** [array.pop()]: the last element and the shortened array. *)
Definition pop {A} (l : list A) : option (A * list A) :=
  match reverse l with
  | [] => None
  | x :: r => Some (x, reverse r)
  end.

(** ** The driver and its environment *)

(** The driver object.  [finalCallback], [captureStateVars] and
    [restoreStateVars] are foreign functions or [null]; the record keeps
    whether they are set.  [cachedJumpTable] maps a branch-site id to the
    [JumpTable] object it caches (an index into the table store). *)
Record StateMachine := mkStateMachine {
  state : State;
  finalCallback : bool;
  captureStateVars : bool;
  restoreStateVars : bool;
  cachedJumpTable : gmap Z nat
}.

(** [new StateMachine(context, callback, fn)] *)
Definition StateMachine_new (callback : bool) : StateMachine :=
  {| state := State_new; finalCallback := callback; captureStateVars := false;
     restoreStateVars := false; cachedJumpTable := ∅ |}.

(** A callback queued with [process.nextTick]: [boundStep] or [boundUnwind]. *)
Inductive tick := boundStep | boundUnwind.

(** The variables closed over by a function returned from [thenTo]. *)
Record Continuation := mkContinuation { target : Z; done : bool }.

(** What the outside observes. *)
Inductive event :=
  | EvFn (arguments : list value)        (* the step function is entered *)
  | EvFinal (arguments : list value)     (* the final callback is called *)
  | EvAction (a : action)                (* a cleanup action runs *)
  | EvLog (msg : string)                 (* console.error / console.assert *)
  | EvThrow (e : exn).                   (* an exception reaches the event loop *)

#[global] Instance event_eq_dec : EqDecision event.
Proof. solve_decision. Defined.

Record World := mkWorld {
  machine : StateMachine;
  ticks : list tick;                 (* the nextTick queue, oldest first *)
  closures : list Continuation;      (* the continuations created so far *)
  tables : list JT.JumpTable;        (* the JumpTable objects created so far *)
  locals : list value;               (* the state variables of the compiled code *)
  trace : list event                 (* oldest first *)
}.

Definition World_new (callback : bool) : World :=
  {| machine := StateMachine_new callback; ticks := []; closures := [];
     tables := []; locals := []; trace := [] |}.

Definition set_machine (m : StateMachine) (w : World) : World :=
  mkWorld m (ticks w) (closures w) (tables w) (locals w) (trace w).
Definition set_ticks (q : list tick) (w : World) : World :=
  mkWorld (machine w) q (closures w) (tables w) (locals w) (trace w).
Definition set_closures (c : list Continuation) (w : World) : World :=
  mkWorld (machine w) (ticks w) c (tables w) (locals w) (trace w).
Definition set_tables (t : list JT.JumpTable) (w : World) : World :=
  mkWorld (machine w) (ticks w) (closures w) t (locals w) (trace w).
Definition set_locals (l : list value) (w : World) : World :=
  mkWorld (machine w) (ticks w) (closures w) (tables w) l (trace w).
Definition set_trace (t : list event) (w : World) : World :=
  mkWorld (machine w) (ticks w) (closures w) (tables w) (locals w) t.

Definition set_state (s : State) (m : StateMachine) : StateMachine :=
  mkStateMachine s (finalCallback m) (captureStateVars m) (restoreStateVars m)
                 (cachedJumpTable m).
Definition set_cachedJumpTable (c : gmap Z nat) (m : StateMachine) : StateMachine :=
  mkStateMachine (state m) (finalCallback m) (captureStateVars m) (restoreStateVars m) c.
Definition set_stateVars (b : bool) (m : StateMachine) : StateMachine :=
  mkStateMachine (state m) (finalCallback m) b b (cachedJumpTable m).

(** [this.state] *)
Definition st (w : World) : State := state (machine w).

(** An assignment to fields of [this.state]. *)
Definition upd (f : State -> State) (w : World) : World :=
  set_machine (set_state (f (st w)) (machine w)) w.

Definition nextTick (t : tick) (w : World) : World := set_ticks (ticks w ++ [t]) w.

Definition emit (e : event) (w : World) : World := set_trace (trace w ++ [e]) w.

(** ** The calls compiled code makes on the runtime *)

Inductive cmd :=
  | CStart
  | CGoTo (i : Z)
  | CThenTo (i : Z)          (* the continuation is handed to an asynchronous operation *)
  | CCallback (arguments : list value)
  | CUnwindNextTick
  | CPushCleanupAction (a : action)
  | CPushCleanupStep (i : Z)
  | CPushErrorStep (i : Z)
  | CPushPhi (i : Z)
  | CPhi
  | CJumpToCase (i : Z) (cases : option (list (list Z)))
                (blockSizes : option (list Z)) (caseVal : Z)
                             (* jumpTable(i, cases, blockSizes).jumpToCase(caseVal),
                                at an integer caseVal *)
  | CInstallStateVars        (* sets captureStateVars and restoreStateVars *)
  | CSetLocals (vs : list value)
  | CAbort (e : value).      (* controlAPIMaker().abort(e) *)

(** ** Methods of [StateMachine.prototype], [JumpTable.prototype] and the
    control API *)

Module SM.

(** [goTo(id)]: [state.id = id; state.waiting++; process.nextTick(boundStep)]. *)
Definition goTo (i : value) (w : World) : World :=
  nextTick boundStep (upd (fun s => set_waiting (waiting s + 1) (set_id i s)) w).

Definition start (w : World) : World := goTo (VNum 1) w.

(** [thenTo(id)]: [var done = false; this.state.waiting++;] and the closure
    is returned (its index in the store, and the new world). *)
Definition thenTo (i : Z) (w : World) : nat * World :=
  let k := length (closures w) in
  (k, upd (fun s => set_waiting (waiting s + 1) s)
        (set_closures (closures w ++ [mkContinuation i false]) w)).

(** [callback(err, ...)], called with the argument list [arguments]:
    [state.args = slice(arguments); state.err = err;
     process.nextTick(boundUnwind)].  [err] is the first argument,
    [undefined] when there is none. *)
Definition callback (arguments : list value) (w : World) : World :=
  nextTick boundUnwind
    (upd (fun s => set_err (default VUndefined (head arguments)) (set_args arguments s)) w).

Definition unwindNextTick (w : World) : World := nextTick boundUnwind w.

(** [unwind()]:
<<
    if (this.state.unwinding.length > 0) {
        var where = this.state.unwinding.pop();
        this.state.isUnwinding = true;
        if (where.isError) {
            if (this.state.err) { this.goTo(where.step); }
            else { process.nextTick(this.boundUnwind); }
        } else {
            if (where.fn) { where.fn(); process.nextTick(this.boundUnwind); }
            else { this.restoreStateVars(where.state); this.goTo(where.step); }
        }
    } else if (!this.state.isFinished) {
        this.state.waiting = 0;
        this.state.isFinished = true;
        this.finalCallback && this.finalCallback.apply(this.context, this.state.args);
    }
>>
    Calling [restoreStateVars] while it is [null] raises a [TypeError]. *)
Definition unwind (w : World) : option exn * World :=
  match pop (unwinding (st w)) with
  | Some (top, rest) =>
      let w1 := upd (fun s => set_isUnwinding true (set_unwinding rest s)) w in
      match top with
      | ErrorStep step =>
          if truthy (err (st w1)) then (None, goTo (VNum step) w1)
          else (None, nextTick boundUnwind w1)
      | CleanupAction a =>
          (None, nextTick boundUnwind (emit (EvAction a) w1))
      | CleanupStep step vars =>
          if restoreStateVars (machine w1)
          then (None, goTo (VNum step) (set_locals vars w1))
          else (Some TypeError, w1)
      end
  | None =>
      if negb (isFinished (st w)) then
        let w1 := upd (fun s => set_isFinished true (set_waiting 0 s)) w in
        (None, if finalCallback (machine w1) then emit (EvFinal (args (st w1))) w1 else w1)
      else (None, w)
  end.

(** [pushCleanupAction(context, fn, args)] pushes the frame whose [fn]
    runs [fn.apply(context, args)]. *)
Definition pushCleanupAction (a : action) (w : World) : World :=
  upd (fun s => set_unwinding (unwinding s ++ [CleanupAction a]) s) w.

(** [pushCleanupStep(id)] pushes [{cleanup: true, step: id, state:
    this.captureStateVars()}]; calling [captureStateVars] while it is
    [null] raises a [TypeError] before anything is pushed. *)
Definition pushCleanupStep (i : Z) (w : World) : option exn * World :=
  if captureStateVars (machine w)
  then (None, upd (fun s => set_unwinding (unwinding s ++ [CleanupStep i (locals w)]) s) w)
  else (Some TypeError, w).

(** [pushErrorStep(id)]:
<<
    if (!this.state.installed_catches[id]) {
        this.state.unwinding.push({isError: true, step: id});
        this.state.installed_catches[id] = true;
    }
>> *)
Definition pushErrorStep (i : Z) (w : World) : World :=
  match installed_catches (st w) !! i with
  | Some true => w
  | _ =>
      upd (fun s => set_installed_catches (<[i := true]> (installed_catches s))
                      (set_unwinding (unwinding s ++ [ErrorStep i]) s)) w
  end.

Definition pushPhi (i : Z) (w : World) : World :=
  upd (fun s => set_phi (phi s ++ [i]) s) w.

(** [phi()]: popping an empty array yields [undefined]. *)
Definition phi (w : World) : World :=
  match pop (phi (st w)) with
  | Some (i, rest) => goTo (VNum i) (upd (set_phi rest) w)
  | None => goTo VUndefined w
  end.

(** [JumpTable.prototype.jumpToCase] at an integer case value (for any
    runtime value see [jumpToCaseValue] below, which agrees with this one
    on integers):
<<
    this.state_machine.pushPhi(this.beyondID);
    var stepID = this.stepIDs[caseVal];
    if (!stepID) { throw new Error(...); }
    this.state_machine.goTo(stepID);
>>
    [!stepID] holds for a missing entry and for the entry [0]. *)
Definition jumpToCase (jt : JT.JumpTable) (caseVal : Z) (w : World) : option exn * World :=
  let w1 := pushPhi (JT.beyondID jt) w in
  match JT.stepIDs jt !! caseVal with
  | Some stepID =>
      if Z.eqb stepID 0
      then (Some (JsError (JT.unhandled_case caseVal (JT.id jt))), w1)
      else (None, goTo (VNum stepID) w1)
  | None => (Some (JsError (JT.unhandled_case caseVal (JT.id jt))), w1)
  end.

(** [JumpTable.prototype.jumpToCase] at any runtime value [caseVal]: the
    same four statements, with [this.stepIDs[caseVal]] read as an Array
    is read and the message built from [String(caseVal)]. *)
Definition jumpToCaseValue (proto : string -> option value) (jt : JT.JumpTable)
    (caseVal : value) (w : World) : option exn * World :=
  let w1 := pushPhi (JT.beyondID jt) w in
  let stepID := array_get proto (JT.stepIDs jt) (ToPropertyKey caseVal) in
  if negb (truthy stepID)
  then (Some (JsError ("Unhandled case '" +:+ ToString caseVal +:+ "' at step "
                         +:+ pretty (JT.id jt))), w1)
  else (None, goTo stepID w1).

(** [jumpTable(id, cases, blockSizes)]:
<<
    if (!cases) { return this.cachedJumpTable[id]; }
    console.assert(cases.length === blockSizes.length);
    return this.cachedJumpTable[id] = new JumpTable(this, id, cases, blockSizes);
>>
    The result is the table object returned ([None] for [undefined]), or
    the exception thrown: [blockSizes.length] on a missing [blockSizes],
    or the constructor's.  A failed [console.assert] prints and goes on. *)
Definition jumpTable (i : Z) (cases : option (list (list Z)))
    (blockSizes : option (list Z)) (w : World) : (exn + option nat) * World :=
  match cases with
  | None => (inr (cachedJumpTable (machine w) !! i), w)
  | Some cs =>
      match blockSizes with
      | None => (inl TypeError, w)
      | Some bs =>
          let w1 := if Nat.eqb (length cs) (length bs) then w
                    else emit (EvLog "Assertion failed") w in
          match JT.new i cs bs with
          | None => (inl TypeError, w1)
          | Some jt =>
              let r := length (tables w1) in
              (inr (Some r),
               set_machine (set_cachedJumpTable (<[i := r]> (cachedJumpTable (machine w1)))
                                                (machine w1))
                           (set_tables (tables w1 ++ [jt]) w1))
          end
      end
  end.

(** The [abort] method of the object made by [controlAPIMaker]:
<<
    if (state_machine.state.waiting > 0) {
        state_machine.state.abort_with_error = err;
    } else {
        state_machine.callback(err);
    }
>> *)
Definition abort (e : value) (w : World) : World :=
  if Z.ltb 0 (waiting (st w))
  then upd (set_abort_with_error e) w
  else callback [e] w.

Definition isWaiting (w : World) : bool := Z.ltb 0 (waiting (st w)).

Definition isFinished (w : World) : bool := isFinished (st w).

(** One call of compiled code on the runtime. *)
Definition exec_cmd (c : cmd) (w : World) : option exn * World :=
  match c with
  | CStart => (None, start w)
  | CGoTo i => (None, goTo (VNum i) w)
  | CThenTo i => (None, snd (thenTo i w))
  | CCallback arguments => (None, callback arguments w)
  | CUnwindNextTick => (None, unwindNextTick w)
  | CPushCleanupAction a => (None, pushCleanupAction a w)
  | CPushCleanupStep i => pushCleanupStep i w
  | CPushErrorStep i => (None, pushErrorStep i w)
  | CPushPhi i => (None, pushPhi i w)
  | CPhi => (None, phi w)
  | CJumpToCase i cases blockSizes caseVal =>
      match jumpTable i cases blockSizes w with
      | (inl e, w1) => (Some e, w1)
      | (inr None, w1) => (Some TypeError, w1)
      | (inr (Some r), w1) =>
          match tables w1 !! r with
          | Some jt => jumpToCase jt caseVal w1
          | None => (Some TypeError, w1)
          end
      end
  | CInstallStateVars => (None, set_machine (set_stateVars true (machine w)) w)
  | CSetLocals vs => (None, set_locals vs w)
  | CAbort e => (None, abort e w)
  end.

(** A sequence of calls; an exception ends it. *)
Fixpoint exec (cs : list cmd) (w : World) : option exn * World :=
  match cs with
  | [] => (None, w)
  | c :: cs' =>
      match exec_cmd c w with
      | (None, w1) => exec cs' w1
      | (Some e, w1) => (Some e, w1)
      end
  end.

Section WithStepFunction.

(** The compiled step function: from the driver state, the state
    variables and the arguments it is called with, the calls it makes. *)
Variable fn : State -> list value -> list value -> list cmd.

(** [fn.apply(context, arguments)] *)
Definition call_fn (arguments : list value) (w : World) : option exn * World :=
  exec (fn (st w) (locals w) arguments) (emit (EvFn arguments) w).

(** [step()]:
<<
    this.state.waiting--;
    if (this.state.abort_with_error) {
        this.state.abort_with_error = null;
        return this.fn.call(this.context, this.state.abort_with_error);
    }
    this.fn.apply(this.context, this.state.args);
>> *)
Definition step (w : World) : option exn * World :=
  let w1 := upd (fun s => set_waiting (waiting s - 1) s) w in
  if truthy (abort_with_error (st w1)) then
    let w2 := upd (set_abort_with_error VNull) w1 in
    call_fn [abort_with_error (st w2)] w2
  else call_fn (args (st w1)) w1.

(** The function returned by [thenTo], as closure [k] called with
    [arguments]:
<<
    _state.waiting--;
    if (_state.abort_with_error) {
        return _self.fn.call(_self.context, _state.abort_with_error);
    }
    if (!done) {
        done = true;
        _state.id = id;
        _self.fn.apply(_self.context, arguments);
    } else {
        console.error('Callback called repeatedly!');
    }
>> *)
Definition continuation (k : nat) (arguments : list value) (w : World) : option exn * World :=
  match closures w !! k with
  | None => (None, w)
  | Some c =>
      let w1 := upd (fun s => set_waiting (waiting s - 1) s) w in
      if truthy (abort_with_error (st w1)) then
        call_fn [abort_with_error (st w1)] w1
      else if negb (done c) then
        let w2 := set_closures (<[k := mkContinuation (target c) true]> (closures w1)) w1 in
        call_fn arguments (upd (set_id (VNum (target c))) w2)
      else (None, emit (EvLog "Callback called repeatedly!") w1)
  end.

(** ** The event loop *)

Inductive input :=
  | ITick                                        (* run the oldest queued callback *)
  | IInvoke (k : nat) (arguments : list value)   (* an operation calls its continuation *)
  | ICall (c : cmd).                             (* a call on the driver from outside *)

Definition uncaught (r : option exn * World) : World :=
  match r with
  | (None, w) => w
  | (Some e, w) => emit (EvThrow e) w
  end.

Definition run_tick (w : World) : World :=
  match ticks w with
  | [] => w
  | t :: q =>
      match t with
      | boundStep => uncaught (step (set_ticks q w))
      | boundUnwind => uncaught (unwind (set_ticks q w))
      end
  end.

Definition react (i : input) (w : World) : World :=
  match i with
  | ITick => run_tick w
  | IInvoke k arguments => uncaught (continuation k arguments w)
  | ICall c => uncaught (exec_cmd c w)
  end.

Definition run (inputs : list input) (w : World) : World :=
  foldl (fun w i => react i w) w inputs.

End WithStepFunction.

End SM.

(** ** The layout of a jump table, in the words of the specification *)

(** The entry step of block [k]: [i + 1] plus the sum of
    [1 + blockSizes[j]] over [j < k]. *)
Definition entry (i : Z) (blockSizes : list Z) (k : nat) : Z :=
  i + 1 + JT.offset blockSizes k.


(** ** Observations on traces and stacks *)

(** The argument lists the final callback was called with, oldest first. *)
Definition finals (t : list event) : list (list value) :=
  omap (fun e => match e with EvFinal a => Some a | _ => None end) t.

(** The argument lists the step function was entered with, oldest first. *)
Definition entries (t : list event) : list (list value) :=
  omap (fun e => match e with EvFn a => Some a | _ => None end) t.

(** The number of error-step frames for step [i] on an unwind stack. *)
Definition count_error_steps (i : Z) (l : list frame) : nat :=
  length (filter (fun f => f = ErrorStep i) l).

(** [installed_catches[i]] is truthy. *)
Definition installed (i : Z) (s : State) : Prop := installed_catches s !! i = Some true.

#[global] Instance installed_dec (i : Z) (s : State) : Decision (installed i s).
Proof. unfold installed. apply _. Defined.

(** Every error-step frame on the stack is recorded in [installed_catches],
    and no step has two of them. *)
Definition catches_consistent (s : State) : Prop :=
  forall i, (count_error_steps i (unwinding s) <= 1)%nat
    /\ (~ installed i s -> count_error_steps i (unwinding s) = 0%nat).

(** What every transition of the driver maintains, from [w] to [w']. *)
Record evolves (w w' : World) : Prop := mkEvolves {
  ev_finished : isFinished (st w) = true -> isFinished (st w') = true;
  ev_finals :
    finals (trace w') = finals (trace w)
    \/ (isFinished (st w) = false /\ isFinished (st w') = true
        /\ finalCallback (machine w) = true
        /\ exists a, finals (trace w') = finals (trace w) ++ [a]);
  ev_callback : finalCallback (machine w') = finalCallback (machine w);
  ev_installed : forall i, installed i (st w) -> installed i (st w');
  ev_consistent : catches_consistent (st w) -> catches_consistent (st w')
}.

(** The worlds a driver created with [new StateMachine] can be in. *)
Definition reachable (fn : State -> list value -> list value -> list cmd)
    (w : World) : Prop :=
  exists callback inputs, w = SM.run fn inputs (World_new callback).

(** ** Scenarios *)

(** A step function that returns at once. *)
Definition idle : State -> list value -> list value -> list cmd := fun _ _ _ => [].

(** Registering cleanup actions, in the order of the list. *)
Definition registrations (acts : list action) : list SM.input :=
  (fun a => SM.ICall (CPushCleanupAction a)) <$> acts.

(** ** Claims in the words of the specification, to compare with the code *)

(** An abort ends, after some ticks, with the final callback called with
    the error alone, and the step function is not entered before that. *)
Definition abort_completes (fn : State -> list value -> list value -> list cmd)
    (e : value) (w : World) : Prop :=
  exists n pre,
    trace (SM.run fn (SM.ICall (CAbort e) :: replicate n SM.ITick) w)
      = trace w ++ pre ++ [EvFinal [e]]
    /\ entries pre = [].

(** A request for the table of a branch site that has one cached returns
    the cached object and creates none. *)
Definition table_reused (i : Z) (cases : option (list (list Z)))
    (blockSizes : option (list Z)) (w : World) : Prop :=
  forall r, cachedJumpTable (machine w) !! i = Some r ->
    (SM.jumpTable i cases blockSizes w).1 = inr (Some r)
    /\ tables (SM.jumpTable i cases blockSizes w).2 = tables w.

(** A continuation that was called stays so: its cell is kept as it is. *)
Definition keeps_called (w w' : World) : Prop :=
  forall k c, closures w !! k = Some c -> done c = true -> closures w' !! k = Some c.

(** ** Unwinding past frames *)

(** The frames the unwind protocol passes without leaving the unwind
    loop, when the pending error is [e]: cleanup actions always, error
    steps when [e] is falsy, cleanup steps never. *)
Definition passes (e : value) (f : frame) : Prop :=
  match f with
  | CleanupAction _ => True
  | ErrorStep _ => truthy e = false
  | CleanupStep _ _ => False
  end.

(** What passing a frame shows to the outside. *)
Definition frame_events (f : frame) : list event :=
  match f with
  | CleanupAction a => [EvAction a]
  | _ => []
  end.

(** The two worlds differ at most in the unwind stack, [isUnwinding], the
    tick queue and the trace. *)
Definition same_registers (w w' : World) : Prop :=
  args (st w') = args (st w) /\ err (st w') = err (st w)
  /\ id (st w') = id (st w) /\ waiting (st w') = waiting (st w)
  /\ phi (st w') = phi (st w)
  /\ installed_catches (st w') = installed_catches (st w)
  /\ isFinished (st w') = isFinished (st w)
  /\ abort_with_error (st w') = abort_with_error (st w)
  /\ finalCallback (machine w') = finalCallback (machine w)
  /\ restoreStateVars (machine w') = restoreStateVars (machine w)
  /\ locals w' = locals w /\ closures w' = closures w.

(** ** The stored result *)

(** From [w] to [w'], [args] and [err] are untouched, or [err] is again
    the first of [args], as [callback] stores them. *)
Definition keeps_result (w w' : World) : Prop :=
  (args (st w') = args (st w) /\ err (st w') = err (st w))
  \/ err (st w') = default VUndefined (head (args (st w'))).

(** * Properties *)

Lemma pop_snoc {A} (l : list A) (x : A) : pop (l ++ [x]) = Some (x, l).
Proof. unfold pop. rewrite reverse_snoc. by rewrite reverse_involutive. Qed.

Lemma offset_0 bs : JT.offset bs 0 = 0.
Proof. reflexivity. Qed.

Lemma offset_S bs k b :
  bs !! k = Some b -> JT.offset bs (S k) = JT.offset bs k + (1 + b).
Proof.
  intros H. unfold JT.offset. rewrite (take_S_r _ _ _ H), fmap_app, foldr_app.
  simpl. generalize ((λ b0 : Z, 1 + b0) <$> take k bs). intros l.
  induction l as [|x l IH]; simpl; [lia|]. rewrite IH. lia.
Qed.

Lemma assign_cases_lookup ci sum m v :
  JT.assign_cases ci sum m !! v = if decide (v ∈ ci) then Some sum else m !! v.
Proof.
  unfold JT.assign_cases. revert m. induction ci as [|c ci IH]; intros m; cbn [foldl].
  - rewrite decide_False; [done|]. by intros ?%elem_of_nil.
  - rewrite IH. destruct (decide (v ∈ ci)) as [Hin|Hin].
    + rewrite decide_True; [done|by right].
    + destruct (decide (c = v)) as [->|Hne].
      * rewrite lookup_insert_eq, decide_True; [done|by left].
      * rewrite lookup_insert_ne by done. rewrite decide_False; [done|].
        intros [?|?]%elem_of_cons; congruence.
Qed.

Lemma build_spec cases bs base n : forall i sum m m' sum',
  JT.build cases bs n i sum m = Some (m', sum') ->
  sum = base + JT.offset bs i ->
  sum' = base + JT.offset bs (i + n)
  /\ (forall v, (forall j cj, (i <= j < i + n)%nat -> cases !! j = Some cj -> v ∉ cj) ->
        m' !! v = m !! v)
  /\ (forall k ci v, (i <= k < i + n)%nat -> cases !! k = Some ci -> v ∈ ci ->
        (forall j cj, (k < j < i + n)%nat -> cases !! j = Some cj -> v ∉ cj) ->
        m' !! v = Some (base + JT.offset bs k)).
Proof.
  induction n as [|n IH]; intros i sum m m' sum' Hb Hsum; simpl in Hb.
  - inversion Hb; subst. rewrite Nat.add_0_r. split; [done|]. split; [done|]. intros; lia.
  - destruct (cases !! i) as [ci|] eqn:Hci; [|done].
    destruct (bs !! i) as [b|] eqn:Hbi; [|done].
    apply IH in Hb as (Hs & Hout & Hin).
    2:{ rewrite (offset_S _ _ _ Hbi). lia. }
    replace (i + S n)%nat with (S i + n)%nat by lia. split; [done|]. split.
    + intros v Hv. rewrite Hout.
      * rewrite assign_cases_lookup, decide_False; [done|]. apply (Hv i); [lia|done].
      * intros j cj Hj. apply Hv. lia.
    + intros k ck v Hk Hck Hvin Hlast.
      destruct (decide (k = i)) as [->|Hne].
      * rewrite Hout.
        -- rewrite Hci in Hck. inversion Hck; subst.
           by rewrite assign_cases_lookup, decide_True.
        -- intros j cj Hj. apply Hlast. lia.
      * apply (Hin k ck); [lia|done..].
Qed.

Lemma build_total cases bs n : forall i sum m,
  (i + n <= length bs)%nat -> (i + n <= length cases)%nat ->
  is_Some (JT.build cases bs n i sum m).
Proof.
  induction n as [|n IH]; intros i sum m Hb Hc; simpl; [by eexists|].
  destruct (lookup_lt_is_Some_2 cases i) as [ci ->]; [lia|].
  destruct (lookup_lt_is_Some_2 bs i) as [b ->]; [lia|].
  apply IH; lia.
Qed.

Lemma new_Some_inv i cases bs jt :
  JT.new i cases bs = Some jt ->
  exists m sum, JT.build cases bs (length bs) 0 (i + 1) ∅ = Some (m, sum)
    /\ jt = JT.mkJumpTable i cases bs m sum.
Proof.
  unfold JT.new. destruct (JT.build _ _ _ _ _ _) as [[m sum]|]; [|done].
  intros [= <-]. eauto.
Qed.

Lemma new_unmapped i cases bs jt v :
  JT.new i cases bs = Some jt ->
  (forall k ci, (k < length bs)%nat -> cases !! k = Some ci -> v ∉ ci) ->
  JT.stepIDs jt !! v = None.
Proof.
  intros (m & sum & Hb & ->)%new_Some_inv Hv. simpl.
  eapply (build_spec _ _ (i + 1)) in Hb as (_ & Hout & _); [|by rewrite offset_0; lia].
  rewrite Hout; [done|]. intros j cj Hj. apply Hv. lia.
Qed.

(** Closed decidable goals, by evaluation. *)
Ltac by_decide := refine (bool_decide_unpack _ _); vm_compute; exact I.

(** The constructor returns whenever every block has its case list. *)
Lemma JumpTable_new_total (i : Z) (cases : list (list Z)) (blockSizes : list Z) :
  (length blockSizes <= length cases)%nat -> is_Some (JT.new i cases blockSizes).
Proof.
  intros H.
  destruct (build_total cases blockSizes (length blockSizes) 0%nat (i + 1) ∅)
    as [[m sum] Hb]; [simpl; lia..|].
  unfold JT.new. rewrite Hb. by eexists.
Qed.




(** For a table built by the constructor and an integer case value that
    none of its blocks lists, [jumpToCase] throws the error whose message
    is "Unhandled case '<value>' at step <branch-site id>"; it has pushed
    [beyondID] on the phi stack, and has changed neither [state.waiting]
    nor [state.id] nor the tick queue. *)
Theorem jumpToCase_unhandled (i : Z) (cases : list (list Z)) (blockSizes : list Z)
    (jt : JT.JumpTable) (caseVal : Z) (w : World)
    (Hnew : JT.new i cases blockSizes = Some jt)
    (Hun : forall k ci, (k < length blockSizes)%nat -> cases !! k = Some ci -> caseVal ∉ ci) :
  SM.jumpToCase jt caseVal w
    = (Some (JsError ("Unhandled case '" +:+ pretty caseVal +:+ "' at step " +:+ pretty i)),
       SM.pushPhi (JT.beyondID jt) w)
  /\ waiting (st (SM.jumpToCase jt caseVal w).2) = waiting (st w)
  /\ id (st (SM.jumpToCase jt caseVal w).2) = id (st w)
  /\ ticks (SM.jumpToCase jt caseVal w).2 = ticks w.
Proof.
  pose proof (new_unmapped _ _ _ _ _ Hnew Hun) as Hnone.
  apply new_Some_inv in Hnew as (m & sum & _ & ->).
  unfold SM.jumpToCase. rewrite Hnone. done.
Qed.

Lemma jumpToCase_unhandled_witness :
  exists jt, JT.new 10 [[1; 2]; [3]] [5; 7] = Some jt
    /\ SM.jumpToCase jt 4 (World_new true)
       = (Some (JsError "Unhandled case '4' at step 10"), SM.pushPhi 25 (World_new true))
    /\ waiting (st (SM.jumpToCase jt 4 (World_new true)).2) = 0.
Proof.
  eexists. split; [reflexivity|].
  assert (forall k ci, (k < length [5; 7])%nat ->
            [[1; 2]; [3]] !! k = Some ci -> (4 : Z) ∉ ci) as Hun.
  { intros k ci Hk Hc. destruct k as [|[|k]]; [| |simpl in Hk; lia];
      injection Hc as <-; by_decide. }
  destruct (jumpToCase_unhandled 10 [[1; 2]; [3]] [5; 7] _ 4 (World_new true) eq_refl Hun)
    as (E & W & _).
  split; [exact E|exact W].
Defined.

(** ** What every transition maintains *)

Lemma pop_Some {A} (l r : list A) (x : A) : pop l = Some (x, r) -> l = r ++ [x].
Proof.
  unfold pop. destruct (reverse l) as [|y t] eqn:E; [done|]. intros [= <- <-].
  by rewrite <- (reverse_involutive l), E, reverse_cons.
Qed.

Lemma finals_snoc t e :
  finals (t ++ [e]) = finals t ++ match e with EvFinal a => [a] | _ => [] end.
Proof. unfold finals. rewrite omap_app. by destruct e. Qed.

Lemma count_error_steps_snoc i l f :
  count_error_steps i (l ++ [f])
  = (count_error_steps i l + if decide (f = ErrorStep i) then 1 else 0)%nat.
Proof.
  unfold count_error_steps. rewrite filter_app, length_app. f_equal.
  rewrite filter_cons, filter_nil. by case_decide.
Qed.

Lemma evolves_refl w : evolves w w.
Proof. split; auto. Qed.

Lemma evolves_trans w1 w2 w3 : evolves w1 w2 -> evolves w2 w3 -> evolves w1 w3.
Proof.
  intros [F1 A1 C1 I1 K1] [F2 A2 C2 I2 K2]. split; auto.
  - destruct A1 as [E1|(U1 & D1 & B1 & a & E1)], A2 as [E2|(U2 & D2 & B2 & a' & E2)].
    + left. congruence.
    + right. split_and!; [|done|congruence|exists a'; congruence].
      destruct (isFinished (st w1)) eqn:E; [|done]. rewrite F1 in U2; done.
    + right. split_and!; [done|auto|done|exists a; congruence].
    + congruence.
  - congruence.
Qed.

(** Transitions that leave the flags, the registry, the stack and the
    final-callback calls alone. *)
Lemma evolves_same w w' :
  isFinished (st w') = isFinished (st w) ->
  installed_catches (st w') = installed_catches (st w) ->
  unwinding (st w') = unwinding (st w) ->
  finalCallback (machine w') = finalCallback (machine w) ->
  finals (trace w') = finals (trace w) ->
  evolves w w'.
Proof.
  intros HF HI HU HC HT. split; auto.
  - congruence.
  - unfold installed. by rewrite HI.
  - unfold catches_consistent, installed. by rewrite HI, HU.
Qed.

Ltac unchanged := apply evolves_same; reflexivity.

Lemma evolves_goTo i w : evolves w (SM.goTo i w).
Proof. by apply evolves_same. Qed.

Lemma evolves_thenTo i w : evolves w (SM.thenTo i w).2.
Proof. by apply evolves_same. Qed.

Lemma evolves_callback a w : evolves w (SM.callback a w).
Proof. by apply evolves_same. Qed.

Lemma evolves_pushPhi i w : evolves w (SM.pushPhi i w).
Proof. by apply evolves_same. Qed.

Lemma evolves_phi w : evolves w (SM.phi w).
Proof. unfold SM.phi. destruct (pop _) as [[i r]|]; by apply evolves_same. Qed.

Lemma evolves_abort e w : evolves w (SM.abort e w).
Proof. unfold SM.abort. case_match; by apply evolves_same. Qed.

Lemma evolves_emit e w :
  (forall a, e <> EvFinal a) -> evolves w (emit e w).
Proof.
  intros He. apply evolves_same; try done. simpl. rewrite finals_snoc.
  destruct e; try by rewrite app_nil_r. by destruct (He arguments).
Qed.

Lemma consistent_push s f :
  (forall i, f <> ErrorStep i) ->
  catches_consistent s -> catches_consistent (set_unwinding (unwinding s ++ [f]) s).
Proof.
  intros Hf K i. unfold catches_consistent, installed in *. simpl.
  rewrite count_error_steps_snoc, decide_False by apply Hf.
  rewrite Nat.add_0_r. apply K.
Qed.

Lemma consistent_pop s top rest b :
  pop (unwinding s) = Some (top, rest) ->
  catches_consistent s -> catches_consistent (set_isUnwinding b (set_unwinding rest s)).
Proof.
  intros Hp%pop_Some K i. destruct (K i) as [K1 K2].
  rewrite Hp, count_error_steps_snoc in K1, K2. unfold installed in *. simpl.
  split; [lia|]. intros H. specialize (K2 H). lia.
Qed.

Lemma evolves_pushCleanupAction a w : evolves w (SM.pushCleanupAction a w).
Proof.
  split; try done. - by left. - intros K. by apply consistent_push.
Qed.

Lemma evolves_pushCleanupStep i w : evolves w (SM.pushCleanupStep i w).2.
Proof.
  unfold SM.pushCleanupStep. case_match; [|apply evolves_refl].
  split; try done. - by left. - intros K. by apply consistent_push.
Qed.

Lemma evolves_pushErrorStep i w : evolves w (SM.pushErrorStep i w).
Proof.
  unfold SM.pushErrorStep.
  destruct (installed_catches (st w) !! i) as [[|]|] eqn:E; [apply evolves_refl|..].
  all: split; try done; [by left| |].
  all: try (intros j Hj; unfold installed in *; simpl;
            destruct (decide (i = j)) as [->|]; [by rewrite lookup_insert_eq|by rewrite lookup_insert_ne]).
  all: intros K j; destruct (K j) as [K1 K2]; unfold installed in *; simpl;
    rewrite count_error_steps_snoc; destruct (decide (i = j)) as [->|Hne].
  all: try (rewrite decide_True by done; rewrite lookup_insert_eq;
            rewrite K2 by congruence; split; [lia|done]).
  all: rewrite decide_False by congruence; rewrite lookup_insert_ne by done;
       rewrite Nat.add_0_r; done.
Qed.

Lemma evolves_unwind w : evolves w (SM.unwind w).2.
Proof.
  unfold SM.unwind. destruct (pop (unwinding (st w))) as [[top rest]|] eqn:Hp.
  - assert (evolves w (upd (fun s => set_isUnwinding true (set_unwinding rest s)) w)) as H0.
    { split; try done. - by left. - by apply (consistent_pop _ top). }
    destruct top as [step|a|step vars]; simpl.
    + case_match; simpl; (eapply evolves_trans; [exact H0|unchanged]).
    + eapply evolves_trans; [exact H0|].
      eapply evolves_trans; [by apply (evolves_emit (EvAction a))|unchanged].
    + case_match; simpl; [|exact H0].
      eapply evolves_trans; [exact H0|unchanged].
  - destruct (isFinished (st w)) eqn:Hf; simpl; [apply evolves_refl|].
    destruct (finalCallback (machine w)) eqn:Hc; simpl.
    + split; [done| |done..].
      right. split_and!; try done. eexists. simpl. by rewrite finals_snoc.
    + split; [done|by left|done..].
Qed.

Lemma evolves_jumpToCase jt v w : evolves w (SM.jumpToCase jt v w).2.
Proof.
  unfold SM.jumpToCase. repeat case_match; simpl; unchanged.
Qed.

Lemma evolves_jumpTable i cs bs w : evolves w (SM.jumpTable i cs bs w).2.
Proof.
  unfold SM.jumpTable. repeat case_match; simpl; try apply evolves_refl.
  all: try unchanged.
  all: eapply evolves_trans; [by apply (evolves_emit (EvLog "Assertion failed"))|];
    try apply evolves_refl; unchanged.
Qed.

Lemma evolves_exec_cmd c w : evolves w (SM.exec_cmd c w).2.
Proof.
  destruct c; simpl.
  - apply evolves_goTo.
  - apply evolves_goTo.
  - apply evolves_thenTo.
  - apply evolves_callback.
  - unchanged.
  - apply evolves_pushCleanupAction.
  - apply evolves_pushCleanupStep.
  - apply evolves_pushErrorStep.
  - apply evolves_pushPhi.
  - apply evolves_phi.
  - pose proof (evolves_jumpTable i cases blockSizes w) as H.
    destruct (SM.jumpTable i cases blockSizes w) as [[e|[r|]] w1]; simpl in *; try done.
    destruct (tables w1 !! r) as [jt|]; simpl; [|done].
    eapply evolves_trans; [exact H|apply evolves_jumpToCase].
  - unchanged.
  - unchanged.
  - apply evolves_abort.
Qed.

Lemma evolves_exec cs : forall w, evolves w (SM.exec cs w).2.
Proof.
  induction cs as [|c cs IH]; intros w; simpl; [apply evolves_refl|].
  pose proof (evolves_exec_cmd c w) as H.
  destruct (SM.exec_cmd c w) as [[e|] w1]; simpl in *; [done|].
  eapply evolves_trans; [exact H|apply IH].
Qed.

Section Evolution.

Variable fn : State -> list value -> list value -> list cmd.

Lemma evolves_call_fn a w : evolves w (SM.call_fn fn a w).2.
Proof.
  unfold SM.call_fn. eapply evolves_trans; [|apply evolves_exec].
  by apply evolves_emit.
Qed.

Lemma evolves_step w : evolves w (SM.step fn w).2.
Proof.
  unfold SM.step. case_match; (eapply evolves_trans; [|apply evolves_call_fn]);
    unchanged.
Qed.

Lemma evolves_continuation k a w : evolves w (SM.continuation fn k a w).2.
Proof.
  unfold SM.continuation. destruct (closures w !! k) as [c|]; [|apply evolves_refl].
  case_match; [eapply evolves_trans; [|apply evolves_call_fn]; unchanged|].
  case_match; simpl.
  - eapply evolves_trans; [|apply evolves_call_fn]. unchanged.
  - eapply evolves_trans; [|by apply (evolves_emit (EvLog "Callback called repeatedly!"))].
    unchanged.
Qed.

Lemma evolves_uncaught w r : evolves w r.2 -> evolves w (SM.uncaught r).
Proof.
  destruct r as [[e|] w1]; simpl; [|done]. intros H.
  eapply evolves_trans; [exact H|]. by apply evolves_emit.
Qed.

Lemma evolves_run_tick w : evolves w (SM.run_tick fn w).
Proof.
  unfold SM.run_tick. destruct (ticks w) as [|[|] q]; [apply evolves_refl|..];
    apply evolves_uncaught.
  - eapply evolves_trans; [|apply evolves_step]. unchanged.
  - eapply evolves_trans; [|apply evolves_unwind]. unchanged.
Qed.

Lemma evolves_react i w : evolves w (SM.react fn i w).
Proof.
  destruct i; simpl.
  - apply evolves_run_tick.
  - apply evolves_uncaught, evolves_continuation.
  - apply evolves_uncaught, evolves_exec_cmd.
Qed.

Lemma evolves_run inputs : forall w, evolves w (SM.run fn inputs w).
Proof.
  induction inputs as [|i inputs IH]; intros w; simpl; [apply evolves_refl|].
  eapply evolves_trans; [apply evolves_react|apply IH].
Qed.

Lemma run_app i1 i2 w : SM.run fn (i1 ++ i2) w = SM.run fn i2 (SM.run fn i1 w).
Proof. unfold SM.run. apply foldl_app. Qed.

(** A driver that has not finished has not called its final callback, and
    its unwind stack is consistent with its registry. *)
Lemma reachable_inv w :
  reachable fn w ->
  catches_consistent (st w)
  /\ (isFinished (st w) = false -> finals (trace w) = [])
  /\ (length (finals (trace w)) <= 1)%nat.
Proof.
  intros (cb & inputs & ->). revert inputs. apply rev_ind.
  - simpl. split; [intros i; split; [cbn; lia|done]|]. split; [done|lia].
  - intros i inputs (K & U & L). rewrite run_app.
    change (SM.run fn [i] ?w) with (SM.react fn i w).
    destruct (evolves_react i (SM.run fn inputs (World_new cb))) as [F A _ _ C].
    split; [auto|]. destruct A as [E|(H1 & H2 & _ & a & E)].
    + rewrite E. split; [|exact L]. intros Hf. apply U.
      destruct (isFinished (st (SM.run fn inputs (World_new cb)))) eqn:Hx; [|done].
      rewrite F in Hf; done.
    + rewrite E, U by done. split; [congruence|]. simpl. lia.
Qed.

End Evolution.

(** ** Aborting a waiting driver *)

Lemma trace_exec_cmd c w : trace (SM.exec_cmd c w).2 = trace w
  \/ trace (SM.exec_cmd c w).2 = trace w ++ [EvLog "Assertion failed"].
Proof.
  destruct c; try by left.
  - simpl. unfold SM.pushCleanupStep. case_match; by left.
  - simpl. unfold SM.pushErrorStep. repeat case_match; by left.
  - simpl. unfold SM.phi. case_match; [case_match|]; by left.
  - simpl. unfold SM.jumpTable.
    destruct cases as [cs|]; [destruct blockSizes as [bs|]|]; simpl.
    + destruct (Nat.eqb (length cs) (length bs)), (JT.new i cs bs) as [jt|]; simpl;
        rewrite ?lookup_app_r, ?Nat.sub_diag by done; simpl;
        unfold SM.jumpToCase; repeat case_match; simpl; auto.
    + by left.
    + destruct (cachedJumpTable (machine w) !! i) as [r|]; [|by left].
      destruct (tables w !! r); [|by left].
      unfold SM.jumpToCase. repeat case_match; by left.
  - simpl. unfold SM.abort. case_match; by left.
Qed.

Lemma trace_exec cs : forall w, trace w `prefix_of` trace (SM.exec cs w).2.
Proof.
  induction cs as [|c cs IH]; intros w; simpl; [done|].
  pose proof (trace_exec_cmd c w) as H.
  destruct (SM.exec_cmd c w) as [[e|] w1]; simpl in *.
  - destruct H as [-> | ->]; [done|by eexists].
  - etrans; [|apply IH]. destruct H as [-> | ->]; [done|by eexists].
Qed.

Lemma trace_call_fn fn a w :
  (trace w ++ [EvFn a]) `prefix_of` trace (SM.call_fn fn a w).2.
Proof. unfold SM.call_fn. apply (trace_exec _ (emit (EvFn a) w)). Qed.

(** C1 (what the code does): when [abort_with_error] holds a truthy
    error [e], the scheduled [step] clears the field first and then reads
    it again, so the step function is entered with [null] and [e] is lost;
    a continuation made by [thenTo] enters the step function with [e] but
    leaves [abort_with_error] set. *)
Theorem abort_error_delivery (fn : State -> list value -> list value -> list cmd)
    (w : World) (e : value)
    (Hab : abort_with_error (st w) = e) (He : truthy e = true) :
  SM.step fn w
    = SM.call_fn fn [VNull]
        (upd (fun s => set_abort_with_error VNull (set_waiting (waiting s - 1) s)) w)
  /\ (trace w ++ [EvFn [VNull]]) `prefix_of` trace (SM.step fn w).2
  /\ forall k c a, closures w !! k = Some c ->
       SM.continuation fn k a w
         = SM.call_fn fn [e] (upd (fun s => set_waiting (waiting s - 1) s) w)
       /\ abort_with_error (st (upd (fun s => set_waiting (waiting s - 1) s) w)) = e
       /\ (trace w ++ [EvFn [e]]) `prefix_of` trace (SM.continuation fn k a w).2.
Proof.
  assert (SM.step fn w
    = SM.call_fn fn [VNull]
        (upd (fun s => set_abort_with_error VNull (set_waiting (waiting s - 1) s)) w)) as Hs.
  { unfold SM.step. cbn [st upd set_machine set_state machine state set_waiting abort_with_error].
    fold (st w). by rewrite Hab, He. }
  split; [exact Hs|]. split.
  - rewrite Hs. exact (trace_call_fn fn [VNull] (upd _ w)).
  - intros k c a Hk.
    assert (SM.continuation fn k a w
      = SM.call_fn fn [e] (upd (fun s => set_waiting (waiting s - 1) s) w)) as Hc.
    { unfold SM.continuation. rewrite Hk.
      cbn [st upd set_machine set_state machine state set_waiting abort_with_error].
      fold (st w). by rewrite Hab, He. }
    split; [exact Hc|]. split; [exact Hab|].
    rewrite Hc. exact (trace_call_fn fn [e] (upd _ w)).
Qed.

Lemma abort_error_delivery_witness :
  let w := SM.run idle [SM.ICall CStart; SM.ICall (CThenTo 2);
                        SM.ICall (CAbort (VError "stop"))] (World_new true) in
  abort_with_error (st w) = VError "stop"
  /\ truthy (VError "stop") = true
  /\ trace (SM.run idle [SM.ITick] w) = [EvFn [VNull]]
  /\ trace (SM.run idle [SM.IInvoke 0 [VNull; VStr "data"]] w) = [EvFn [VError "stop"]]
  /\ abort_with_error (st (SM.run idle [SM.IInvoke 0 [VNull; VStr "data"]] w))
     = VError "stop".
Proof.
  intros w.
  destruct (abort_error_delivery idle w (VError "stop") eq_refl eq_refl) as (Hs & _ & Hk).
  destruct (Hk 0%nat (mkContinuation 2 false) [VNull; VStr "data"] eq_refl) as (Hc & _ & _).
  split; [reflexivity|]. split; [reflexivity|].
  split; [|split].
  - change (SM.run idle [SM.ITick] w) with (SM.uncaught (SM.step idle (set_ticks [] w))).
    reflexivity.
  - change (SM.run idle [SM.IInvoke 0 [VNull; VStr "data"]] w)
      with (SM.uncaught (SM.continuation idle 0 [VNull; VStr "data"] w)).
    rewrite Hc. reflexivity.
  - change (SM.run idle [SM.IInvoke 0 [VNull; VStr "data"]] w)
      with (SM.uncaught (SM.continuation idle 0 [VNull; VStr "data"] w)).
    rewrite Hc. reflexivity.
Defined.

(** ** Calling a continuation again *)

Lemma closures_exec_cmd c w : closures w `prefix_of` closures (SM.exec_cmd c w).2.
Proof.
  destruct c; try done; simpl.
  - by eexists.
  - unfold SM.pushCleanupStep. by case_match.
  - unfold SM.pushErrorStep. by repeat case_match.
  - unfold SM.phi. by repeat case_match.
  - unfold SM.jumpTable, SM.jumpToCase. repeat (case_match; simplify_eq/=); done.
  - unfold SM.abort. by case_match.
Qed.

Lemma closures_exec cs : forall w, closures w `prefix_of` closures (SM.exec cs w).2.
Proof.
  induction cs as [|c cs IH]; intros w; simpl; [done|].
  pose proof (closures_exec_cmd c w) as H.
  destruct (SM.exec_cmd c w) as [[e|] w1]; simpl in *; [done|].
  etrans; [exact H|apply IH].
Qed.

Lemma keeps_called_prefix w w' : closures w `prefix_of` closures w' -> keeps_called w w'.
Proof. intros H k c Hk _. by eapply prefix_lookup_Some. Qed.

Lemma keeps_called_trans w1 w2 w3 :
  keeps_called w1 w2 -> keeps_called w2 w3 -> keeps_called w1 w3.
Proof. intros H1 H2 k c Hk Hd. apply H2; [|done]. by apply H1. Qed.

Section Called.

Variable fn : State -> list value -> list value -> list cmd.

Lemma closures_call_fn a w : closures w `prefix_of` closures (SM.call_fn fn a w).2.
Proof. unfold SM.call_fn. exact (closures_exec _ (emit (EvFn a) w)). Qed.

Ltac by_call_fn :=
  match goal with
  | |- _ `prefix_of` closures (SM.call_fn _ ?a ?v).2 => exact (closures_call_fn a v)
  end.

Lemma keeps_called_step w : keeps_called w (SM.step fn w).2.
Proof.
  apply keeps_called_prefix. unfold SM.step.
  case_match; by_call_fn.
Qed.

Lemma keeps_called_unwind w : keeps_called w (SM.unwind w).2.
Proof.
  apply keeps_called_prefix. unfold SM.unwind.
  repeat case_match; simplify_eq/=; done.
Qed.

Lemma keeps_called_continuation k a w : keeps_called w (SM.continuation fn k a w).2.
Proof.
  unfold SM.continuation. destruct (closures w !! k) as [c|] eqn:Hk; [|by intros ?].
  case_match; [apply keeps_called_prefix; by_call_fn|].
  destruct (done c) eqn:Hd; simpl; [by intros ?|].
  intros k' c' Hk' Hd'.
  eapply prefix_lookup_Some; [|apply closures_call_fn]. simpl.
  destruct (decide (k = k')) as [<-|Hne]; [congruence|].
  by rewrite list_lookup_insert_ne.
Qed.

Lemma keeps_called_uncaught w r : keeps_called w r.2 -> keeps_called w (SM.uncaught r).
Proof. by destruct r as [[e|] w1]. Qed.

Lemma keeps_called_react i w : keeps_called w (SM.react fn i w).
Proof.
  destruct i; simpl.
  - unfold SM.run_tick. destruct (ticks w) as [|[|] q]; [by intros ?|..];
      apply keeps_called_uncaught.
    + exact (keeps_called_step (set_ticks q w)).
    + exact (keeps_called_unwind (set_ticks q w)).
  - apply keeps_called_uncaught, keeps_called_continuation.
  - apply keeps_called_uncaught, keeps_called_prefix, closures_exec_cmd.
Qed.

Lemma keeps_called_run inputs : forall w, keeps_called w (SM.run fn inputs w).
Proof.
  induction inputs as [|i inputs IH]; intros w; simpl; [by intros ?|].
  eapply keeps_called_trans; [apply keeps_called_react|apply IH].
Qed.

End Called.

(** The first call of a continuation, with no abort pending, enters the
    step function and marks the closure as called. *)
Lemma continuation_first_call (fn : State -> list value -> list value -> list cmd)
    (w : World) (k : nat) (c : Continuation) (a : list value) :
  closures w !! k = Some c -> done c = false ->
  truthy (abort_with_error (st w)) = false ->
  (trace w ++ [EvFn a]) `prefix_of` trace (SM.continuation fn k a w).2
  /\ closures (SM.continuation fn k a w).2 !! k = Some (mkContinuation (target c) true).
Proof.
  intros Hk Hd Ha. unfold SM.continuation. rewrite Hk, Hd.
  cbn [st upd set_machine set_state machine state set_waiting abort_with_error].
  fold (st w). rewrite Ha. cbn [negb]. split.
  - exact (trace_call_fn fn a (upd _ (set_closures _ (upd _ w)))).
  - unfold SM.call_fn.
    eapply prefix_lookup_Some; [|apply closures_exec]. simpl.
    apply list_lookup_insert_eq. by eapply lookup_lt_Some.
Qed.

(** C2 (what the code does): the first call of a continuation, with no
    abort pending, marks it as called, and it stays so whatever the driver
    does.  A continuation that was already called decrements [waiting]
    once more before it looks at its guard; with no abort pending it then
    only reports on [console.error], but with an abort pending it enters
    the step function again. *)
Theorem continuation_called_again (fn : State -> list value -> list value -> list cmd)
    (w : World) (k : nat) (c : Continuation) (a : list value)
    (Hk : closures w !! k = Some c) :
  (done c = false -> truthy (abort_with_error (st w)) = false ->
     closures (SM.continuation fn k a w).2 !! k = Some (mkContinuation (target c) true))
  /\ (done c = true ->
      (forall inputs, closures (SM.run fn inputs w) !! k = Some c)
      /\ (truthy (abort_with_error (st w)) = false ->
          SM.continuation fn k a w
            = (None, emit (EvLog "Callback called repeatedly!")
                       (upd (fun s => set_waiting (waiting s - 1) s) w))
          /\ waiting (st (SM.continuation fn k a w).2) = waiting (st w) - 1
          /\ id (st (SM.continuation fn k a w).2) = id (st w))
      /\ (truthy (abort_with_error (st w)) = true ->
          SM.continuation fn k a w
            = SM.call_fn fn [abort_with_error (st w)]
                (upd (fun s => set_waiting (waiting s - 1) s) w)
          /\ (trace w ++ [EvFn [abort_with_error (st w)]])
               `prefix_of` trace (SM.continuation fn k a w).2)).
Proof.
  split; [intros Hd Ha; by apply continuation_first_call|].
  intros Hd. split; [intros inputs; by apply (keeps_called_run fn inputs w)|].
  split; intros Ha.
  - assert (SM.continuation fn k a w
       = (None, emit (EvLog "Callback called repeatedly!")
                  (upd (fun s => set_waiting (waiting s - 1) s) w))) as ->; [|done].
    unfold SM.continuation. rewrite Hk, Hd.
    cbn [st upd set_machine set_state machine state set_waiting abort_with_error].
    fold (st w). by rewrite Ha.
  - assert (SM.continuation fn k a w
       = SM.call_fn fn [abort_with_error (st w)]
           (upd (fun s => set_waiting (waiting s - 1) s) w)) as ->.
    { unfold SM.continuation. rewrite Hk.
      cbn [st upd set_machine set_state machine state set_waiting abort_with_error].
      fold (st w). by rewrite Ha. }
    split; [done|]. exact (trace_call_fn fn _ (upd _ w)).
Qed.

Lemma continuation_called_again_witness :
  let w0 := SM.run idle [SM.ICall (CThenTo 7)] (World_new true) in
  let w := SM.run idle [SM.IInvoke 0 [VNull; VStr "r"]] w0 in
  let w' := SM.run idle [SM.ICall (CThenTo 8); SM.ICall (CAbort (VError "stop"))] w in
  closures w0 !! 0%nat = Some (mkContinuation 7 false)
  /\ closures w !! 0%nat = Some (mkContinuation 7 true)
  /\ waiting (st w) = 0
  /\ waiting (st (SM.run idle [SM.IInvoke 0 [VNull; VStr "r"]] w)) = -1
  /\ trace (SM.run idle [SM.IInvoke 0 [VNull; VStr "r"]] w)
     = [EvFn [VNull; VStr "r"]; EvLog "Callback called repeatedly!"]
  /\ trace (SM.run idle [SM.IInvoke 0 [VNull; VStr "r"]] w')
     = [EvFn [VNull; VStr "r"]; EvFn [VError "stop"]].
Proof.
  intros w0 w w'.
  destruct (continuation_called_again idle w0 0 (mkContinuation 7 false) [VNull; VStr "r"]
              eq_refl) as [H0 _].
  destruct (continuation_called_again idle w 0 (mkContinuation 7 true) [VNull; VStr "r"]
              eq_refl) as [_ H1].
  destruct (H1 eq_refl) as (_ & H1' & _). destruct (H1' eq_refl) as (E1 & W1 & _).
  destruct (continuation_called_again idle w' 0 (mkContinuation 7 true) [VNull; VStr "r"]
              eq_refl) as [_ H2].
  destruct (H2 eq_refl) as (_ & _ & H2'). destruct (H2' eq_refl) as (E2 & _).
  split; [reflexivity|]. split; [exact (H0 eq_refl eq_refl)|].
  split; [reflexivity|]. split; [|split].
  - change (SM.run idle [SM.IInvoke 0 [VNull; VStr "r"]] w)
      with (SM.uncaught (SM.continuation idle 0 [VNull; VStr "r"] w)).
    rewrite E1. reflexivity.
  - change (SM.run idle [SM.IInvoke 0 [VNull; VStr "r"]] w)
      with (SM.uncaught (SM.continuation idle 0 [VNull; VStr "r"] w)).
    rewrite E1. reflexivity.
  - change (SM.run idle [SM.IInvoke 0 [VNull; VStr "r"]] w')
      with (SM.uncaught (SM.continuation idle 0 [VNull; VStr "r"] w')).
    rewrite E2. reflexivity.
Defined.

(** ** Completion *)

Section Completion.

Variable fn : State -> list value -> list value -> list cmd.

Lemma finals_frozen w inputs :
  isFinished (st w) = true ->
  finals (trace (SM.run fn inputs w)) = finals (trace w)
  /\ isFinished (st (SM.run fn inputs w)) = true.
Proof.
  intros Hf. destruct (evolves_run fn inputs w) as [F A _ _ _]. split; [|auto].
  destruct A as [E|(U & _)]; [done|congruence].
Qed.

(** The unwind tick that finds the stack empty completes the driver. *)
Lemma run_completes w a :
  unwinding (st w) = [] -> isFinished (st w) = false ->
  finalCallback (machine w) = true -> ticks w = [] ->
  SM.run fn [SM.ICall (CCallback a); SM.ITick] w
  = emit (EvFinal a)
      (upd (fun s => set_isFinished true (set_waiting 0
              (set_err (default VUndefined (head a)) (set_args a s)))) w).
Proof.
  destruct w as [[s fc cv rv cj] q cl tb lo tr]. destruct s. simpl.
  intros -> -> -> ->. reflexivity.
Qed.

(** Once finished, [callback] and its unwind tick only overwrite [args]
    and [err]. *)
Lemma run_callback_finished w a :
  unwinding (st w) = [] -> isFinished (st w) = true -> ticks w = [] ->
  SM.run fn [SM.ICall (CCallback a); SM.ITick] w
  = upd (fun s => set_err (default VUndefined (head a)) (set_args a s)) w.
Proof.
  destruct w as [[s fc cv rv cj] q cl tb lo tr]. destruct s. simpl.
  intros -> -> ->. reflexivity.
Qed.

End Completion.

(** C3: in a driver that has not finished, whose unwind stack and tick
    queue are empty and which has a final callback, [callback(null, "ok")]
    followed by its unwind tick calls the final callback with
    [(null, "ok")] and sets [isFinished]; whatever happens afterwards, the
    final callback has been called exactly once, with these arguments; a
    later [callback(...)] with its tick emits nothing and changes only the
    stored [args] and [err]. *)
Theorem callback_ok_completes (fn : State -> list value -> list value -> list cmd)
    (w : World)
    (Hr : reachable fn w) (Hs : unwinding (st w) = [])
    (Hf : isFinished (st w) = false) (Hc : finalCallback (machine w) = true)
    (Hq : ticks w = []) :
  let w1 := SM.run fn [SM.ICall (CCallback [VNull; VStr "ok"]); SM.ITick] w in
  trace w1 = trace w ++ [EvFinal [VNull; VStr "ok"]]
  /\ finals (trace w1) = [[VNull; VStr "ok"]]
  /\ isFinished (st w1) = true
  /\ (forall inputs, finals (trace (SM.run fn inputs w1)) = [[VNull; VStr "ok"]]
        /\ isFinished (st (SM.run fn inputs w1)) = true)
  /\ (forall a,
        SM.run fn [SM.ICall (CCallback a); SM.ITick] w1
        = upd (fun s => set_err (default VUndefined (head a)) (set_args a s)) w1).
Proof.
  intros w1. subst w1. rewrite (run_completes fn w _ Hs Hf Hc Hq).
  destruct (reachable_inv fn w Hr) as (_ & U & _).
  set (w1 := emit _ _).
  assert (finals (trace w1) = [[VNull; VStr "ok"]]) as Hfin.
  { subst w1. simpl. by rewrite finals_snoc, (U Hf). }
  split; [done|]. split; [done|]. split; [done|]. split.
  - intros inputs. destruct (finals_frozen fn w1 inputs) as [E F]; [done|].
    by rewrite E.
  - intros a. apply run_callback_finished; [exact Hs|done|exact Hq].
Qed.

Lemma callback_ok_completes_witness :
  let w := SM.run idle [SM.ICall CStart; SM.ITick] (World_new true) in
  let w1 := SM.run idle [SM.ICall (CCallback [VNull; VStr "ok"]); SM.ITick] w in
  unwinding (st w) = [] /\ isFinished (st w) = false
  /\ finals (trace (SM.run idle [SM.ICall (CCallback [VError "late"]); SM.ITick;
                                 SM.ICall (CAbort (VError "stop")); SM.ITick] w1))
     = [[VNull; VStr "ok"]].
Proof.
  intros w w1. split; [reflexivity|]. split; [reflexivity|].
  assert (reachable idle w) as Hr by (by exists true, [SM.ICall CStart; SM.ITick]).
  destruct (callback_ok_completes idle w Hr eq_refl eq_refl eq_refl eq_refl)
    as (_ & _ & _ & H & _).
  apply H.
Defined.

(** ** Cleanup actions *)

Section Cleanup.

Variable fn : State -> list value -> list value -> list cmd.

Lemma run_registrations acts : forall w,
  let w' := SM.run fn (registrations acts) w in
  unwinding (st w') = unwinding (st w) ++ (CleanupAction <$> acts)
  /\ trace w' = trace w /\ ticks w' = ticks w
  /\ isFinished (st w') = isFinished (st w)
  /\ finalCallback (machine w') = finalCallback (machine w).
Proof.
  induction acts as [|a acts IH]; intros w; simpl.
  - by rewrite app_nil_r.
  - destruct (IH (SM.pushCleanupAction a w)) as (U & T & Q & F & C).
    fold (registrations acts). fold (SM.run fn (registrations acts) (SM.pushCleanupAction a w)).
    rewrite U, T, Q, F, C. simpl. by rewrite <- app_assoc.
Qed.

Lemma unwind_action_top w rest a :
  unwinding (st w) = rest ++ [CleanupAction a] ->
  SM.unwind w
  = (None, nextTick boundUnwind (emit (EvAction a)
             (upd (fun s => set_isUnwinding true (set_unwinding rest s)) w))).
Proof. intros H. unfold SM.unwind. by rewrite H, pop_snoc. Qed.

Lemma unwind_finish w :
  unwinding (st w) = [] -> isFinished (st w) = false ->
  finalCallback (machine w) = true ->
  SM.unwind w
  = (None, emit (EvFinal (args (st w)))
             (upd (fun s => set_isFinished true (set_waiting 0 s)) w)).
Proof.
  intros Hs Hf Hc. unfold SM.unwind. rewrite Hs, Hf.
  cbn [pop reverse rev_append negb upd set_machine set_state finalCallback machine].
  by rewrite Hc.
Qed.

(** With only cleanup actions above [base] and one unwind tick queued,
    as many ticks as there are actions run them from the top down. *)
Lemma run_unwind_actions acts : forall w base,
  unwinding (st w) = base ++ (CleanupAction <$> acts) ->
  ticks w = [boundUnwind] ->
  let w' := SM.run fn (replicate (length acts) SM.ITick) w in
  trace w' = trace w ++ (EvAction <$> reverse acts)
  /\ unwinding (st w') = base /\ ticks w' = [boundUnwind]
  /\ args (st w') = args (st w)
  /\ isFinished (st w') = isFinished (st w)
  /\ finalCallback (machine w') = finalCallback (machine w).
Proof.
  induction acts as [|a acts IH] using rev_ind; intros w base Hu Hq.
  - simpl in *. by rewrite !app_nil_r in *.
  - rewrite length_app, Nat.add_comm. cbn [length Nat.add replicate].
    change (SM.run fn (SM.ITick :: ?l) w) with (SM.run fn l (SM.run_tick fn w)).
    assert (SM.run_tick fn w
            = nextTick boundUnwind (emit (EvAction a)
                (upd (fun s => set_isUnwinding true
                                 (set_unwinding (base ++ (CleanupAction <$> acts)) s))
                   (set_ticks [] w)))) as ->.
    { unfold SM.run_tick. rewrite Hq.
      rewrite (unwind_action_top (set_ticks [] w) (base ++ (CleanupAction <$> acts)) a);
        [done|].
      change (st (set_ticks [] w)) with (st w).
      by rewrite Hu, fmap_app, app_assoc. }
    destruct (IH (nextTick boundUnwind (emit (EvAction a)
                (upd (fun s => set_isUnwinding true
                                 (set_unwinding (base ++ (CleanupAction <$> acts)) s))
                   (set_ticks [] w)))) base) as (T & U & Q & A & F & C); [done..|].
    rewrite T, U, Q, A, F, C. rewrite reverse_snoc. simpl.
    by rewrite <- app_assoc.
Qed.

End Cleanup.

(** C6: with an empty tick queue, after registering the cleanup actions
    [acts] in this order and calling [callback(null)], the next
    [length acts] ticks run exactly these actions, each once, last
    registered first, and leave the frames that were on the stack before;
    when there were none and the driver has a final callback and has not
    finished, the tick after them calls the final callback. *)
Theorem cleanup_actions_LIFO (fn : State -> list value -> list value -> list cmd)
    (w : World) (acts : list action) (Hq : ticks w = []) :
  let w1 := SM.run fn (registrations acts ++ [SM.ICall (CCallback [VNull])]) w in
  let w2 := SM.run fn (replicate (length acts) SM.ITick) w1 in
  trace w1 = trace w
  /\ trace w2 = trace w ++ (EvAction <$> reverse acts)
  /\ unwinding (st w2) = unwinding (st w)
  /\ (unwinding (st w) = [] -> isFinished (st w) = false ->
      finalCallback (machine w) = true ->
      trace (SM.run fn [SM.ITick] w2)
        = trace w ++ (EvAction <$> reverse acts) ++ [EvFinal [VNull]]
      /\ ticks (SM.run fn [SM.ITick] w2) = []).
Proof.
  intros w1 w2.
  destruct (run_registrations fn acts w) as (U & T & Q & F & C).
  assert (trace w1 = trace w /\ unwinding (st w1) = unwinding (st w) ++ (CleanupAction <$> acts)
          /\ ticks w1 = [boundUnwind] /\ args (st w1) = [VNull]
          /\ isFinished (st w1) = isFinished (st w)
          /\ finalCallback (machine w1) = finalCallback (machine w)) as (T1 & U1 & Q1 & A1 & F1 & C1).
  { subst w1. rewrite run_app. simpl in *. by rewrite T, U, Q, Hq, F, C. }
  destruct (run_unwind_actions fn acts w1 (unwinding (st w)) U1 Q1)
    as (T2 & U2 & Q2 & A2 & F2 & C2).
  fold w2 in T2, U2, Q2, A2, F2, C2.
  split; [done|]. split; [by rewrite T2, T1|]. split; [done|].
  intros Hs Hf Hc.
  assert (SM.run fn [SM.ITick] w2
          = emit (EvFinal [VNull])
              (upd (fun s => set_isFinished true (set_waiting 0 s)) (set_ticks [] w2))) as ->.
  { change (SM.run fn [SM.ITick] w2) with (SM.run_tick fn w2).
    unfold SM.run_tick. rewrite Q2.
    rewrite (unwind_finish (set_ticks [] w2)).
    - change (st (set_ticks [] w2)) with (st w2). by rewrite A2, A1.
    - change (st (set_ticks [] w2)) with (st w2). by rewrite U2.
    - change (st (set_ticks [] w2)) with (st w2). by rewrite F2, F1.
    - change (machine (set_ticks [] w2)) with (machine w2). by rewrite C2, C1. }
  simpl. by rewrite T2, T1, <- app_assoc.
Qed.

Lemma cleanup_actions_LIFO_witness :
  let a1 := mkAction 1 [] in
  let a2 := mkAction 2 [VStr "file"] in
  let a3 := mkAction 3 [] in
  let w := World_new true in
  let w1 := SM.run idle (registrations [a1; a2; a3] ++ [SM.ICall (CCallback [VNull])]) w in
  let w2 := SM.run idle (replicate 3 SM.ITick) w1 in
  ticks w = []
  /\ trace (SM.run idle [SM.ITick] w2)
     = [EvAction a3; EvAction a2; EvAction a1; EvFinal [VNull]].
Proof.
  intros a1 a2 a3 w w1 w2. split; [reflexivity|].
  destruct (cleanup_actions_LIFO idle w [a1; a2; a3] eq_refl) as (_ & _ & _ & H).
  destruct (H eq_refl eq_refl eq_refl) as [H1 _].
  etrans; [exact H1|]. reflexivity.
Defined.

(** ** The control API *)

Lemma run_ticks_empty fn n w : ticks w = [] -> SM.run fn (replicate n SM.ITick) w = w.
Proof.
  intros H. induction n as [|n IH]; [done|].
  cbn [replicate]. change (SM.run fn (SM.ITick :: ?l) w) with (SM.run fn l (SM.run_tick fn w)).
  unfold SM.run_tick. by rewrite H.
Qed.

(** C7, as amended: [abort(e)] on a waiting driver ([waiting > 0]) only
    stores [e] in [abort_with_error]; otherwise it is [callback(e)], and
    when moreover the unwind stack and the tick queue are empty and the
    driver has a final callback and has not finished, the unwind tick
    that [callback] queued calls the final callback with [(e)], without
    entering the step function. *)
Theorem abort_behaviour (fn : State -> list value -> list value -> list cmd)
    (w : World) (e : value) :
  (0 < waiting (st w) -> SM.abort e w = upd (set_abort_with_error e) w)
  /\ (waiting (st w) <= 0 -> SM.abort e w = SM.callback [e] w)
  /\ (waiting (st w) <= 0 -> unwinding (st w) = [] -> isFinished (st w) = false ->
      finalCallback (machine w) = true -> ticks w = [] ->
      let w' := SM.run fn [SM.ICall (CAbort e); SM.ITick] w in
      trace w' = trace w ++ [EvFinal [e]]
      /\ isFinished (st w') = true /\ ticks w' = []).
Proof.
  split; [|split].
  - intros H. unfold SM.abort. by rewrite (proj2 (Z.ltb_lt _ _) H).
  - intros H. unfold SM.abort. by rewrite (proj2 (Z.ltb_ge _ _) H).
  - intros H Hs Hf Hc Hq w'.
    assert (w' = SM.run fn [SM.ICall (CCallback [e]); SM.ITick] w) as ->.
    { subst w'. simpl. unfold SM.abort. by rewrite (proj2 (Z.ltb_ge _ _) H). }
    rewrite (run_completes fn w [e] Hs Hf Hc Hq). simpl. by rewrite Hq.
Qed.

Lemma abort_behaviour_witness :
  let w := SM.run idle [SM.ICall CStart; SM.ITick] (World_new true) in
  waiting (st w) = 0
  /\ trace (SM.run idle [SM.ICall (CAbort (VError "stop")); SM.ITick] w)
     = [EvFn [VNull; VNull]; EvFinal [VError "stop"]]
  /\ let w1 := SM.run idle [SM.ICall CStart] (World_new true) in
     SM.abort (VError "stop") w1 = upd (set_abort_with_error (VError "stop")) w1.
Proof.
  intros w. split; [reflexivity|].
  destruct (abort_behaviour idle w (VError "stop")) as (_ & _ & H).
  destruct (H ltac:(done) eq_refl eq_refl eq_refl eq_refl) as (T & _ & _).
  split; [exact T|]. intros w1.
  destruct (abort_behaviour idle w1 (VError "stop")) as (H1 & _).
  apply H1. reflexivity.
Defined.

(** C7, as stated, fails: with a catch handler registered and nothing
    outstanding, [abort] resumes the handler's step and the final callback
    is not called. *)
Lemma abort_resumes_handler :
  let w := SM.run idle [SM.ICall (CPushErrorStep 5)] (World_new true) in
  waiting (st w) = 0
  /\ ~ abort_completes idle (VError "stop") w
  /\ trace (SM.run idle [SM.ICall (CAbort (VError "stop")); SM.ITick; SM.ITick] w)
     = [EvFn [VError "stop"]].
Proof.
  intros w. split; [reflexivity|]. split; [|reflexivity].
  intros (n & pre & H & _).
  assert (exists t, (t = [] \/ t = [EvFn [VError "stop"]]) /\ t = pre ++ [EvFinal [VError "stop"]])
    as (t & Ht & E).
  { eexists. split; [|exact H]. destruct n as [|[|n]]; [by left..|]. right.
    cbn [replicate].
    change (SM.ICall (CAbort (VError "stop")) :: SM.ITick :: SM.ITick :: replicate n SM.ITick)
      with ([SM.ICall (CAbort (VError "stop")); SM.ITick; SM.ITick] ++ replicate n SM.ITick).
    rewrite run_app.
    by rewrite run_ticks_empty. }
  destruct Ht as [-> | ->].
  - by destruct pre.
  - destruct pre as [|x [|y pre]]; simplify_eq/=.
Qed.

(** ** Error steps *)

Lemma pushErrorStep_installed i w : installed i (st w) -> SM.pushErrorStep i w = w.
Proof. unfold installed, SM.pushErrorStep. by intros ->. Qed.

Lemma pushErrorStep_fresh i w :
  ~ installed i (st w) ->
  SM.pushErrorStep i w
  = upd (fun s => set_installed_catches (<[i := true]> (installed_catches s))
                    (set_unwinding (unwinding s ++ [ErrorStep i]) s)) w.
Proof.
  unfold installed, SM.pushErrorStep.
  by destruct (installed_catches (st w) !! i) as [[|]|].
Qed.

Lemma pushErrorStep_records i w : installed i (st (SM.pushErrorStep i w)).
Proof.
  destruct (decide (installed i (st w))) as [H|H].
  - by rewrite pushErrorStep_installed.
  - rewrite pushErrorStep_fresh by done. unfold installed. simpl.
    apply lookup_insert_eq.
Qed.

Lemma iter_pushErrorStep_installed i n w :
  installed i (st w) -> Nat.iter n (SM.pushErrorStep i) w = w.
Proof.
  intros H. induction n as [|n IH]; [done|]. simpl. rewrite IH.
  by apply pushErrorStep_installed.
Qed.

(** C8: [pushErrorStep(i)] pushes a frame, and records [i], only when [i]
    is not yet recorded in [installed_catches]; hence one or more calls
    in a row add exactly one error-step frame for [i] when [i] was not
    recorded and none when it was.  After two calls (or any positive
    number of calls) of [pushErrorStep(5)] on a new driver the stack is
    the single frame for step 5; in a reachable driver whose frame for
    [i], if registered, is still on the stack, the stack holds exactly
    one frame for [i] after the calls.  No reachable stack holds two
    error-step frames for the same step. *)
Theorem pushErrorStep_once (w : World) (i : Z) (n : nat) :
  (installed i (st w) -> SM.pushErrorStep i w = w)
  /\ (~ installed i (st w) ->
      unwinding (st (SM.pushErrorStep i w)) = unwinding (st w) ++ [ErrorStep i]
      /\ installed i (st (SM.pushErrorStep i w)))
  /\ count_error_steps i (unwinding (st (Nat.iter (S n) (SM.pushErrorStep i) w)))
     = (count_error_steps i (unwinding (st w))
        + if decide (installed i (st w)) then 0 else 1)%nat
  /\ (forall callback,
        unwinding (st (Nat.iter (S n) (SM.pushErrorStep 5) (World_new callback)))
        = [ErrorStep 5])
  /\ (forall fn, reachable fn w ->
        (installed i (st w) -> count_error_steps i (unwinding (st w)) = 1%nat) ->
        count_error_steps i (unwinding (st (Nat.iter (S n) (SM.pushErrorStep i) w))) = 1%nat)
  /\ (forall fn w', reachable fn w' ->
        (count_error_steps i (unwinding (st w')) <= 1)%nat).
Proof.
  assert (count_error_steps i (unwinding (st (Nat.iter (S n) (SM.pushErrorStep i) w)))
          = (count_error_steps i (unwinding (st w))
             + if decide (installed i (st w)) then 0 else 1)%nat) as Hcount.
  { rewrite Nat.iter_succ_r.
    rewrite iter_pushErrorStep_installed by apply pushErrorStep_records.
    destruct (decide (installed i (st w))) as [H|H].
    + rewrite pushErrorStep_installed by done. lia.
    + rewrite pushErrorStep_fresh by done. simpl.
      rewrite count_error_steps_snoc, decide_True by done. done. }
  split; [apply pushErrorStep_installed|]. split.
  { intros H. rewrite pushErrorStep_fresh by done. split; [done|].
    unfold installed. simpl. apply lookup_insert_eq. }
  split; [exact Hcount|]. split; [|split].
  - intros callback. rewrite Nat.iter_succ_r.
    rewrite iter_pushErrorStep_installed by apply pushErrorStep_records. done.
  - intros fn Hr Hon. rewrite Hcount.
    destruct (reachable_inv fn w Hr) as (K & _). destruct (K i) as [_ K0].
    destruct (decide (installed i (st w))) as [H|H]; [rewrite Hon by done|rewrite K0 by done];
      lia.
  - intros fn w' Hr. destruct (reachable_inv fn w' Hr) as (K & _). apply K.
Qed.

(** ** The table cache *)

(** C9, as amended: [jumpTable(i)] without [cases] returns what the cache
    holds for [i] and changes nothing; [jumpTable(i, cases, blockSizes)]
    with well-formed case data (as many case lists as block sizes)
    creates a new table object on every call, whatever the cache holds,
    and makes the cache entry of [i] refer to it. *)
Theorem jumpTable_cache (w : World) (i : Z) :
  (forall blockSizes,
     SM.jumpTable i None blockSizes w = (inr (cachedJumpTable (machine w) !! i), w))
  /\ (forall cases blockSizes jt,
        length cases = length blockSizes ->
        JT.new i cases blockSizes = Some jt ->
        let r := SM.jumpTable i (Some cases) (Some blockSizes) w in
        r.1 = inr (Some (length (tables w)))
        /\ tables r.2 = tables w ++ [jt]
        /\ tables r.2 !! length (tables w) = Some jt
        /\ cachedJumpTable (machine r.2) !! i = Some (length (tables w))
        /\ st r.2 = st w /\ trace r.2 = trace w).
Proof.
  split; [done|]. intros cases blockSizes jt Hlen Hnew r. subst r.
  unfold SM.jumpTable. rewrite Hnew, Hlen, Nat.eqb_refl. simpl.
  split; [done|]. split; [done|]. split.
  - by rewrite lookup_app_r, Nat.sub_diag.
  - split; [apply lookup_insert_eq|done].
Qed.

Lemma jumpTable_cache_witness :
  let w := (SM.jumpTable 10 (Some [[1; 2]; [3]]) (Some [5; 7]) (World_new true)).2 in
  exists jt, JT.new 10 [[1; 2]; [3]] [5; 7] = Some jt
    /\ (SM.jumpTable 10 None None w).1 = inr (Some 0%nat)
    /\ (SM.jumpTable 10 (Some [[1; 2]; [3]]) (Some [5; 7]) w).1 = inr (Some 1%nat)
    /\ tables (SM.jumpTable 10 (Some [[1; 2]; [3]]) (Some [5; 7]) w).2 = [jt; jt].
Proof.
  intros w. eexists. split; [reflexivity|].
  destruct (jumpTable_cache w 10) as [H1 H2].
  split; [by rewrite H1|].
  destruct (H2 [[1; 2]; [3]] [5; 7] _ eq_refl eq_refl) as (R & T & _).
  split; [exact R|exact T].
Defined.

(** C9, as stated, fails: the same request made twice with its [cases]
    creates a second table object and returns that one. *)
Lemma jumpTable_built_again :
  let w := (SM.jumpTable 10 (Some [[1; 2]; [3]]) (Some [5; 7]) (World_new true)).2 in
  cachedJumpTable (machine w) !! 10 = Some 0%nat
  /\ (SM.jumpTable 10 (Some [[1; 2]; [3]]) (Some [5; 7]) w).1 = inr (Some 1%nat)
  /\ length (tables (SM.jumpTable 10 (Some [[1; 2]; [3]]) (Some [5; 7]) w).2) = 2%nat
  /\ ~ table_reused 10 (Some [[1; 2]; [3]]) (Some [5; 7]) w.
Proof.
  intros w. split; [reflexivity|]. split; [reflexivity|]. split; [reflexivity|].
  intros H. destruct (H 0%nat eq_refl) as [H1 _]. discriminate H1.
Qed.

(** ** The registry of catch handlers *)

(** C10: once [pushErrorStep(i)] has been called, [i] stays recorded in
    [installed_catches] whatever the driver does afterwards, so that every
    later [pushErrorStep(i)] changes nothing; in particular after the
    frame was popped by the unwind protocol and its handler has run, a
    new [pushErrorStep] for the same step registers no frame. *)
Theorem installed_catches_never_cleared
    (fn : State -> list value -> list value -> list cmd)
    (w : World) (i : Z) (inputs : list SM.input) :
  (let w' := SM.run fn inputs (SM.pushErrorStep i w) in
   installed i (st w') /\ SM.pushErrorStep i w' = w')
  /\ (installed i (st w) ->
      installed i (st (SM.run fn inputs w))
      /\ SM.pushErrorStep i (SM.run fn inputs w) = SM.run fn inputs w)
  /\ (let w0 := SM.run idle [SM.ICall (CPushErrorStep 5);
                             SM.ICall (CCallback [VError "boom"]);
                             SM.ITick; SM.ITick] (World_new true) in
      unwinding (st w0) = [] /\ trace w0 = [EvFn [VError "boom"]]
      /\ SM.pushErrorStep 5 w0 = w0).
Proof.
  assert (forall v, installed i (st v) ->
            installed i (st (SM.run fn inputs v))
            /\ SM.pushErrorStep i (SM.run fn inputs v) = SM.run fn inputs v) as H.
  { intros v Hv. destruct (evolves_run fn inputs v) as [_ _ _ I _].
    split; [by apply I|]. by apply pushErrorStep_installed, I. }
  split; [apply H, pushErrorStep_records|]. split; [apply H|].
  intros w0. split; [reflexivity|]. split; [reflexivity|].
  apply pushErrorStep_installed. reflexivity.
Qed.

(** ** A case value of any type *)

(** On an integer the general lookup is the lookup of [jumpToCase]. *)
Lemma jumpToCaseValue_integer proto jt z w :
  SM.jumpToCaseValue proto jt (VNum z) w = SM.jumpToCase jt z w.
Proof.
  unfold SM.jumpToCaseValue, SM.jumpToCase, JT.unhandled_case. simpl.
  destruct (JT.stepIDs jt !! z) as [s|]; simpl; [|done].
  by destruct (Z.eqb s 0).
Qed.

(** The general lookup keeps what every transition keeps. *)
Lemma evolves_jumpToCaseValue proto jt v w :
  evolves w (SM.jumpToCaseValue proto jt v w).2.
Proof. unfold SM.jumpToCaseValue. destruct (negb _); simpl; unchanged. Qed.

(** C5 (what the code does): [jumpToCase] reads [stepIDs], an Array,
    under the runtime value of the switch expression.  For a value that
    no block lists: when the Array has no truthy property under its key
    (always so for an integer or the decimal string of one), the call
    throws the error "Unhandled case '<value>' at step <id>" and has
    changed neither [waiting] nor [id]; but when the key names a property
    every Array has ([constructor], [push], a non-zero [length], ...) the
    call does not throw: it goes to that property as if it were a step,
    so that [id] and [waiting] are changed. *)
Theorem jumpToCase_any_value (proto : string -> option value)
    (i : Z) (cases : list (list Z)) (blockSizes : list Z) (jt : JT.JumpTable)
    (caseVal : value) (w : World)
    (Hnew : JT.new i cases blockSizes = Some jt)
    (Hun : forall z, ToPropertyKey caseVal = KIndex z ->
             forall k ci, (k < length blockSizes)%nat -> cases !! k = Some ci -> z ∉ ci) :
  let found := array_get proto (JT.stepIDs jt) (ToPropertyKey caseVal) in
  let r := SM.jumpToCaseValue proto jt caseVal w in
  (truthy found = false ->
     r = (Some (JsError ("Unhandled case '" +:+ ToString caseVal +:+ "' at step "
                           +:+ pretty i)),
          SM.pushPhi (JT.beyondID jt) w)
     /\ waiting (st r.2) = waiting (st w) /\ id (st r.2) = id (st w)
     /\ ticks r.2 = ticks w)
  /\ (truthy found = true ->
     r = (None, SM.goTo found (SM.pushPhi (JT.beyondID jt) w))
     /\ waiting (st r.2) = waiting (st w) + 1 /\ id (st r.2) = found
     /\ ticks r.2 = ticks w ++ [boundStep])
  /\ (forall z, ToPropertyKey caseVal = KIndex z -> found = VUndefined)
  /\ (forall s, ToPropertyKey caseVal = KName s ->
        found = if String.eqb s "length" then VNum (array_length (JT.stepIDs jt))
                else default VUndefined (proto s)).
Proof.
  intros found r. subst found r. unfold SM.jumpToCaseValue.
  assert (JT.id jt = i) as -> by (by apply new_Some_inv in Hnew as (m & sum & _ & ->)).
  split_and!.
  - intros ->. done.
  - intros ->. done.
  - intros z Hz. rewrite Hz. simpl.
    by rewrite (new_unmapped _ _ _ _ _ Hnew (Hun z Hz)).
  - intros s Hs. by rewrite Hs.
Qed.

Lemma jumpToCase_any_value_witness :
  exists jt, JT.new 10 [[1; 2]; [3]] [5; 7] = Some jt
    /\ SM.jumpToCaseValue es5_proto jt (VStr "constructor") (World_new true)
       = (None, SM.goTo (VBuiltin "Array") (SM.pushPhi 25 (World_new true)))
    /\ id (st (SM.jumpToCaseValue es5_proto jt (VStr "constructor") (World_new true)).2)
       = VBuiltin "Array"
    /\ waiting (st (SM.jumpToCaseValue es5_proto jt (VStr "constructor") (World_new true)).2)
       = 1
    /\ id (st (SM.jumpToCaseValue es5_proto jt (VStr "length") (World_new true)).2) = VNum 4
    /\ SM.jumpToCaseValue es5_proto jt (VStr "4") (World_new true)
       = (Some (JsError "Unhandled case '4' at step 10"), SM.pushPhi 25 (World_new true))
    /\ SM.jumpToCaseValue es5_proto jt VUndefined (World_new true)
       = (Some (JsError "Unhandled case 'undefined' at step 10"),
          SM.pushPhi 25 (World_new true)).
Proof.
  eexists. split; [reflexivity|].
  assert (forall k ci, (k < length [5; 7])%nat ->
            [[1; 2]; [3]] !! k = Some ci -> (4 : Z) ∉ ci) as Hun.
  { intros k ci Hk Hc. destruct k as [|[|k]]; [| |simpl in Hk; lia];
      injection Hc as <-; by_decide. }
  pose (T := jumpToCase_any_value es5_proto 10 [[1; 2]; [3]] [5; 7]).
  destruct (T _ (VStr "constructor") (World_new true) eq_refl) as (_ & H1 & _).
  { intros z Hz. discriminate Hz. }
  destruct (T _ (VStr "length") (World_new true) eq_refl) as (_ & H2 & _).
  { intros z Hz. discriminate Hz. }
  destruct (T _ (VStr "4") (World_new true) eq_refl) as (H3 & _).
  { intros z Hz. injection Hz as <-. exact Hun. }
  destruct (T _ VUndefined (World_new true) eq_refl) as (H4 & _).
  { intros z Hz. discriminate Hz. }
  destruct (H1 eq_refl) as (E1 & W1 & I1 & _).
  destruct (H2 eq_refl) as (_ & _ & I2 & _).
  destruct (H3 eq_refl) as (E3 & _). destruct (H4 eq_refl) as (E4 & _).
  split; [exact E1|]. split; [exact I1|]. split; [exact W1|].
  split; [exact I2|]. split; [exact E3|exact E4].
Defined.

(** * Further properties *)

(** ** More on jump tables *)

Lemma build_None cases bs n : forall i sum m,
  JT.build cases bs n i sum m = None -> (i + n <= length bs)%nat ->
  (length cases < i + n)%nat.
Proof.
  induction n as [|n IH]; intros i sum m Hb Hl; simpl in Hb; [done|].
  destruct (cases !! i) as [ci|] eqn:Hci.
  - destruct (bs !! i) as [b|] eqn:Hbi.
    + apply IH in Hb; lia.
    + apply lookup_ge_None in Hbi. lia.
  - apply lookup_ge_None in Hci. lia.
Qed.


Lemma build_values cases bs base n v s : forall i sum m m' sum',
  JT.build cases bs n i sum m = Some (m', sum') ->
  sum = base + JT.offset bs i ->
  m' !! v = Some s ->
  m !! v = Some s \/ exists k, (i <= k < i + n)%nat /\ s = base + JT.offset bs k.
Proof.
  induction n as [|n IH]; intros i sum m m' sum' Hb Hsum Hv; simpl in Hb.
  - injection Hb as <- <-. by left.
  - destruct (cases !! i) as [ci|] eqn:Hci; [|done].
    destruct (bs !! i) as [b|] eqn:Hbi; [|done].
    eapply IH in Hb as [H|(k & Hk & ->)]; [| |by rewrite (offset_S _ _ _ Hbi); lia|exact Hv].
    + rewrite assign_cases_lookup in H. destruct (decide (v ∈ ci)); [|by left].
      right. exists i. split; [lia|congruence].
    + right. exists k. split; [lia|done].
Qed.

Lemma offset_step bs k :
  Forall (fun b => 0 <= b) bs -> (k < length bs)%nat ->
  JT.offset bs k < JT.offset bs (S k).
Proof.
  intros Hpos Hk. destruct (lookup_lt_is_Some_2 bs k Hk) as [b Hb].
  rewrite (offset_S _ _ _ Hb).
  pose proof (Forall_lookup_1 _ _ _ _ Hpos Hb) as H0. simpl in H0. lia.
Qed.

Lemma offset_mono bs k k' :
  Forall (fun b => 0 <= b) bs -> (k <= k' <= length bs)%nat ->
  JT.offset bs k <= JT.offset bs k'.
Proof.
  intros Hpos. induction k' as [|k' IH]; intros Hk.
  - replace k with 0%nat by lia. done.
  - destruct (decide (k = S k')) as [->|Hne]; [done|].
    pose proof (offset_step bs k' Hpos). lia.
Qed.

Lemma new_None_iff i cases bs :
  JT.new i cases bs = None <-> (length cases < length bs)%nat.
Proof.
  split.
  - unfold JT.new. destruct (JT.build _ _ _ _ _ _) as [[m sum]|] eqn:Hb; [done|].
    intros _. apply build_None in Hb; simpl in *; lia.
  - intros H. destruct (JT.new i cases bs) as [jt|] eqn:Hn; [|done].
    exfalso. apply new_Some_inv in Hn as (m & sum & Hb & _).
    assert (forall n j s m0 r, JT.build cases bs n j s m0 = Some r ->
              (j + n <= length cases)%nat \/ n = 0%nat) as Hlen.
    { induction n as [|n IH]; intros j s m0 r Hr; [by right|]. left. simpl in Hr.
      destruct (cases !! j) as [cj|] eqn:Hcj; [|done].
      destruct (bs !! j) as [b|]; [|done].
      apply lookup_lt_Some in Hcj. destruct (IH _ _ _ _ Hr); lia. }
    destruct (Hlen _ _ _ _ _ Hb); lia.
Qed.

(** X13: The constructor throws exactly when a block has no case list, that
    is when [cases] is shorter than [blockSizes]; a longer [cases] is
    accepted. *)
Theorem JumpTable_throws_iff (i : Z) (cases : list (list Z)) (blockSizes : list Z) :
  JT.new i cases blockSizes = None <-> (length cases < length blockSizes)%nat.
Proof. apply new_None_iff. Qed.



(** X15: With block sizes that are not negative, every entry of the table lies
    strictly between the branch-site id and [beyondID], and later blocks
    have larger entries. *)
Theorem JumpTable_entries_in_range (i : Z) (cases : list (list Z)) (blockSizes : list Z)
    (jt : JT.JumpTable)
    (Hnew : JT.new i cases blockSizes = Some jt)
    (Hsizes : Forall (fun b => 0 <= b) blockSizes) :
  i < JT.beyondID jt
  /\ (forall v s, JT.stepIDs jt !! v = Some s -> i < s < JT.beyondID jt)
  /\ (forall k k', (k < k' <= length blockSizes)%nat ->
        entry i blockSizes k < entry i blockSizes k').
Proof.
  apply new_Some_inv in Hnew as (m & sum & Hb & ->). simpl.
  assert (forall k k', (k < k' <= length blockSizes)%nat ->
            JT.offset blockSizes k < JT.offset blockSizes k') as Hlt.
  { intros k k' Hk. pose proof (offset_step blockSizes k Hsizes).
    pose proof (offset_mono blockSizes (S k) k' Hsizes). lia. }
  assert (forall k, (k <= length blockSizes)%nat -> 0 <= JT.offset blockSizes k) as H0.
  { intros k Hk. pose proof (offset_mono blockSizes 0 k Hsizes). rewrite offset_0 in H. lia. }
  assert (sum = i + 1 + JT.offset blockSizes (length blockSizes)) as ->.
  { by eapply (build_spec _ _ (i + 1)) in Hb as (Hs & _ & _); [|by rewrite offset_0; lia]. }
  split; [specialize (H0 (length blockSizes)); lia|]. split.
  - intros v s Hs.
    destruct (build_values cases blockSizes (i + 1) _ v s _ _ _ _ _ Hb) as [H|(k & Hk & ->)];
      [by rewrite offset_0; lia|exact Hs|by rewrite lookup_empty in H|].
    specialize (H0 k). specialize (Hlt k (length blockSizes)). lia.
  - intros k k' Hk. unfold entry. specialize (Hlt k k' Hk). lia.
Qed.

Lemma JumpTable_entries_in_range_witness :
  exists jt, JT.new 10 [[1; 2]; [3]] [5; 7] = Some jt
    /\ Forall (fun b => 0 <= b) [5; 7]
    /\ 10 < JT.beyondID jt
    /\ entry 10 [5; 7] 0 < entry 10 [5; 7] 1.
Proof.
  eexists. split; [reflexivity|].
  assert (Forall (fun b => 0 <= b) [5; 7]) as Hs by (repeat constructor; lia).
  destruct (JumpTable_entries_in_range 10 [[1; 2]; [3]] [5; 7] _ eq_refl Hs) as (H1 & _ & H3).
  split; [exact Hs|]. split; [exact H1|]. apply H3. simpl. lia.
Defined.

(** ** Branching and converging *)

(** X11: [phi()] after [pushPhi(i)] goes to step [i] and leaves the phi stack
    as it was before the push; on an empty phi stack [phi()] still
    schedules a step, with [state.id] undefined. *)
Theorem pushPhi_phi (w : World) (i : Z) :
  SM.phi (SM.pushPhi i w) = SM.goTo (VNum i) w
  /\ (phi (st w) = [] ->
      SM.phi w = SM.goTo VUndefined w
      /\ id (st (SM.phi w)) = VUndefined
      /\ waiting (st (SM.phi w)) = waiting (st w) + 1
      /\ ticks (SM.phi w) = ticks w ++ [boundStep]).
Proof.
  split.
  - unfold SM.phi, SM.pushPhi. cbn [st upd set_machine set_state machine state set_phi phi].
    rewrite pop_snoc. destruct w as [[s fc cv rv cj] q cl tb lo tr]. by destruct s.
  - intros H. unfold SM.phi. by rewrite H.
Qed.

(** X12: A case value whose entry in the table is [s]: [jumpToCase] pushes
    [beyondID] and, unless [s] is [0], goes to step [s], after which
    [phi()] goes to [beyondID] with the phi stack as before; an entry [0]
    is taken for a missing one and the call throws. *)
Theorem jumpToCase_mapped (jt : JT.JumpTable) (caseVal s : Z) (w : World)
    (Hs : JT.stepIDs jt !! caseVal = Some s) :
  (s <> 0 ->
     SM.jumpToCase jt caseVal w
       = (None, SM.goTo (VNum s) (SM.pushPhi (JT.beyondID jt) w))
     /\ SM.phi (SM.jumpToCase jt caseVal w).2
        = SM.goTo (VNum (JT.beyondID jt)) (SM.goTo (VNum s) w))
  /\ (s = 0 ->
     SM.jumpToCase jt caseVal w
       = (Some (JsError (JT.unhandled_case caseVal (JT.id jt))),
          SM.pushPhi (JT.beyondID jt) w)).
Proof.
  split; intros H.
  - assert (SM.jumpToCase jt caseVal w
       = (None, SM.goTo (VNum s) (SM.pushPhi (JT.beyondID jt) w))) as ->.
    { unfold SM.jumpToCase. rewrite Hs. by rewrite (proj2 (Z.eqb_neq _ _) H). }
    split; [done|]. unfold SM.phi, SM.goTo, SM.pushPhi, nextTick.
    cbn [snd st upd set_machine set_state set_ticks machine state set_phi set_id
         set_waiting phi].
    rewrite pop_snoc. destruct w as [[st0 fc cv rv cj] q cl tb lo tr]. by destruct st0.
  - subst s. unfold SM.jumpToCase. by rewrite Hs.
Qed.

Lemma jumpToCase_mapped_witness :
  exists jt, JT.new 10 [[1; 2]; [3]] [5; 7] = Some jt
    /\ JT.stepIDs jt !! 2 = Some 11
    /\ id (st (SM.jumpToCase jt 2 (World_new true)).2) = VNum 11
    /\ phi (st (SM.jumpToCase jt 2 (World_new true)).2) = [25]
    /\ id (st (SM.phi (SM.jumpToCase jt 2 (World_new true)).2)) = VNum 25
    /\ phi (st (SM.phi (SM.jumpToCase jt 2 (World_new true)).2)) = [].
Proof.
  eexists. split; [reflexivity|].
  match goal with
  | |- JT.stepIDs ?j !! _ = _ /\ _ =>
      assert (JT.stepIDs j !! 2 = Some 11) as Hs by (vm_compute; reflexivity);
      destruct (jumpToCase_mapped j 2 11 (World_new true) Hs) as [H _]
  end.
  destruct (H ltac:(lia)) as [E1 E2].
  split; [exact Hs|]. rewrite E2, E1. repeat split.
Defined.

(** ** Requests for a jump table *)

(** X16: [jumpTable(i, cases, blockSizes)] followed by [jumpTable(i)] returns
    the table just built, whether or not the assertion on the lengths
    held; the entries of other branch sites and the table objects made
    before are kept. *)
Theorem jumpTable_store_lookup (w : World) (i : Z) (cases : list (list Z))
    (blockSizes : list Z) (jt : JT.JumpTable)
    (Hnew : JT.new i cases blockSizes = Some jt) :
  let w1 := (SM.jumpTable i (Some cases) (Some blockSizes) w).2 in
  (exists r, SM.jumpTable i None None w1 = (inr (Some r), w1)
             /\ tables w1 !! r = Some jt)
  /\ (forall j, j <> i ->
        cachedJumpTable (machine w1) !! j = cachedJumpTable (machine w) !! j)
  /\ (forall r' jt', tables w !! r' = Some jt' -> tables w1 !! r' = Some jt').
Proof.
  intros w1. subst w1. unfold SM.jumpTable. rewrite Hnew.
  destruct (Nat.eqb (length cases) (length blockSizes)); simpl.
  all: split; [eexists; split; [by rewrite lookup_insert_eq|];
               by rewrite lookup_app_r, Nat.sub_diag|].
  all: split; [intros j Hj; by rewrite lookup_insert_ne|].
  all: intros r' jt' H; by apply lookup_app_l_Some.
Qed.

Lemma jumpTable_store_lookup_witness :
  let w1 := (SM.jumpTable 10 (Some [[1; 2]; [3]; [4]]) (Some [5; 7]) (World_new true)).2 in
  exists jt, JT.new 10 [[1; 2]; [3]; [4]] [5; 7] = Some jt
    /\ trace w1 = [EvLog "Assertion failed"]
    /\ exists r, SM.jumpTable 10 None None w1 = (inr (Some r), w1)
                 /\ tables w1 !! r = Some jt.
Proof.
  intros w1. eexists. split; [reflexivity|]. split; [reflexivity|].
  destruct (jumpTable_store_lookup (World_new true) 10 [[1; 2]; [3]; [4]] [5; 7] _ eq_refl)
    as (H & _). exact H.
Defined.

(** X17: When [cases] is shorter than [blockSizes], [jumpTable(i, cases,
    blockSizes)] reports the failed assertion and the constructor throws:
    nothing is cached, no table is created, and a table cached before for
    [i] is still the one [jumpTable(i)] returns. *)
Theorem jumpTable_failed_build (w : World) (i : Z) (cases : list (list Z))
    (blockSizes : list Z)
    (Hshort : (length cases < length blockSizes)%nat) :
  SM.jumpTable i (Some cases) (Some blockSizes) w
    = (inl TypeError, emit (EvLog "Assertion failed") w)
  /\ (SM.jumpTable i None None (SM.jumpTable i (Some cases) (Some blockSizes) w).2).1
     = (SM.jumpTable i None None w).1.
Proof.
  assert (SM.jumpTable i (Some cases) (Some blockSizes) w
    = (inl TypeError, emit (EvLog "Assertion failed") w)) as ->; [|done].
  unfold SM.jumpTable. rewrite (proj2 (new_None_iff i cases blockSizes) Hshort).
  by rewrite (proj2 (Nat.eqb_neq _ _)) by lia.
Qed.

Lemma jumpTable_failed_build_witness :
  Nat.lt (length [[1; 2]]) (length [5; 7])
  /\ SM.jumpTable 10 (Some [[1; 2]]) (Some [5; 7]) (World_new true)
     = (inl TypeError, emit (EvLog "Assertion failed") (World_new true)).
Proof.
  assert (Nat.lt (length [[1; 2]]) (length [5; 7])) as H by (simpl; lia).
  split; [exact H|].
  destruct (jumpTable_failed_build (World_new true) 10 [[1; 2]] [5; 7] H) as [E _].
  exact E.
Defined.

(** ** Resuming *)

Section Resuming.

Variable fn : State -> list value -> list value -> list cmd.

Lemma step_plain w :
  truthy (abort_with_error (st w)) = false ->
  SM.step fn w
  = SM.call_fn fn (args (st w)) (upd (fun s => set_waiting (waiting s - 1) s) w).
Proof.
  intros Ha. unfold SM.step.
  cbn [st upd set_machine set_state machine state set_waiting abort_with_error].
  fold (st w). by rewrite Ha.
Qed.

Lemma run_tick_step w q :
  ticks w = boundStep :: q -> SM.run_tick fn w = SM.uncaught (SM.step fn (set_ticks q w)).
Proof. intros H. unfold SM.run_tick. by rewrite H. Qed.

Lemma run_tick_unwind w q :
  ticks w = boundUnwind :: q ->
  SM.run_tick fn w = SM.uncaught (SM.unwind (set_ticks q w)).
Proof. intros H. unfold SM.run_tick. by rewrite H. Qed.

(** X5: With nothing queued and no abort pending, the tick after [goTo(i)]
    enters the step function with the stored [args], at [state.id = i] and
    with [waiting] back to what it was.  [goTo] stores the id at once:
    after [goTo(i); goTo(j)] the first of the two queued steps already
    runs at [state.id = j], in the state [goTo(j)] alone would leave.
    On a new driver, [start()] and its tick enter the step function at
    step 1 with [(null, null)]. *)
Theorem goTo_resumes (w : World) (i j : Z)
    (Hq : ticks w = []) (Ha : truthy (abort_with_error (st w)) = false) :
  SM.run fn [SM.ICall (CGoTo i); SM.ITick] w
    = SM.uncaught (SM.call_fn fn (args (st w)) (upd (set_id (VNum i)) w))
  /\ SM.run fn [SM.ICall (CGoTo i); SM.ICall (CGoTo j); SM.ITick] w
    = SM.uncaught (SM.call_fn fn (args (st w)) (SM.goTo (VNum j) w))
  /\ (forall callback,
        SM.run fn [SM.ICall CStart; SM.ITick] (World_new callback)
        = SM.uncaught (SM.call_fn fn [VNull; VNull]
                         (upd (set_id (VNum 1)) (World_new callback)))).
Proof.
  split; [|split; [|reflexivity]].
  - change (SM.run fn [SM.ICall (CGoTo i); SM.ITick] w)
      with (SM.run_tick fn (SM.goTo (VNum i) w)).
    rewrite (run_tick_step _ []); [|by cbn; rewrite Hq].
    rewrite step_plain by exact Ha.
    f_equal. f_equal.
    destruct w as [[s fc cv rv cj] q cl tb lo tr].
    destruct s as [i0 a0 e0 u0 p0 ic0 wt0 f0 iu0 ab0]. simpl in Hq. subst q.
    cbv -[Z.add Z.sub]. by rewrite Z.add_simpl_r.
  - change (SM.run fn [SM.ICall (CGoTo i); SM.ICall (CGoTo j); SM.ITick] w)
      with (SM.run_tick fn (SM.goTo (VNum j) (SM.goTo (VNum i) w))).
    rewrite (run_tick_step _ [boundStep]); [|by cbn; rewrite Hq].
    rewrite step_plain by exact Ha.
    f_equal. f_equal.
    destruct w as [[s fc cv rv cj] q cl tb lo tr].
    destruct s as [i0 a0 e0 u0 p0 ic0 wt0 f0 iu0 ab0]. simpl in Hq. subst q.
    cbv -[Z.add Z.sub]. by rewrite Z.add_simpl_r.
Qed.

End Resuming.

(** ** Unwinding *)

Lemma same_registers_refl w : same_registers w w.
Proof. by repeat split. Qed.

Lemma same_registers_trans w1 w2 w3 :
  same_registers w1 w2 -> same_registers w2 w3 -> same_registers w1 w3.
Proof.
  unfold same_registers. intros H1 H2. destruct_and!. split_and!; congruence.
Qed.

Lemma unwind_error_top w rest h :
  unwinding (st w) = rest ++ [ErrorStep h] ->
  SM.unwind w
  = (None,
     if truthy (err (st w))
     then SM.goTo (VNum h) (upd (fun s => set_isUnwinding true (set_unwinding rest s)) w)
     else nextTick boundUnwind
            (upd (fun s => set_isUnwinding true (set_unwinding rest s)) w)).
Proof.
  intros H. unfold SM.unwind. rewrite H, pop_snoc.
  cbn [st upd set_machine set_state machine state set_isUnwinding set_unwinding err].
  fold (st w). by destruct (truthy (err (st w))).
Qed.

Section Unwinding.

Variable fn : State -> list value -> list value -> list cmd.

(** One unwind tick for each frame the protocol passes. *)
Lemma run_unwind_passes fs : forall w base,
  unwinding (st w) = base ++ fs -> ticks w = [boundUnwind] ->
  Forall (passes (err (st w))) fs ->
  let w' := SM.run fn (replicate (length fs) SM.ITick) w in
  trace w' = trace w ++ concat (frame_events <$> reverse fs)
  /\ unwinding (st w') = base /\ ticks w' = [boundUnwind]
  /\ same_registers w w'.
Proof.
  induction fs as [|f fs IH] using rev_ind; intros w base Hu Hq Hp.
  - simpl in *. rewrite !app_nil_r in *. split_and!; try done; apply same_registers_refl.
  - rewrite length_app, Nat.add_comm. cbn [length Nat.add replicate].
    change (SM.run fn (SM.ITick :: ?l) w) with (SM.run fn l (SM.run_tick fn w)).
    apply Forall_app in Hp as [Hp Hf]. rewrite Forall_singleton in Hf.
    rewrite app_assoc in Hu.
    assert (exists w1, SM.run_tick fn w = w1
              /\ trace w1 = trace w ++ frame_events f
              /\ unwinding (st w1) = base ++ fs /\ ticks w1 = [boundUnwind]
              /\ same_registers w w1) as (w1 & -> & T1 & U1 & Q1 & R1).
    { rewrite (run_tick_unwind fn w []) by done.
      destruct f as [h|a|h vs]; [| |destruct Hf].
      - rewrite (unwind_error_top (set_ticks [] w) (base ++ fs) h) by exact Hu.
        change (truthy (err (st w)) = false) in Hf.
        change (st (set_ticks [] w)) with (st w). rewrite Hf.
        eexists. split; [reflexivity|]. simpl. rewrite app_nil_r.
        split_and!; try done; by repeat split.
      - rewrite (unwind_action_top (set_ticks [] w) (base ++ fs) a) by exact Hu.
        eexists. split; [reflexivity|]. split_and!; try done; by repeat split. }
    destruct (IH w1 base U1 Q1) as (T & U & Q & R).
    { destruct R1 as (_ & E & _). by rewrite E. }
    split_and!; [|done|done|by eapply same_registers_trans].
    rewrite T, T1, reverse_snoc. simpl. by rewrite <- app_assoc.
Qed.

End Unwinding.

Lemma frame_events_actions acts :
  concat (frame_events <$> (CleanupAction <$> acts)) = EvAction <$> acts.
Proof. induction acts as [|a acts IH]; [done|]. simpl. f_equal. exact IH. Qed.

Lemma passes_actions e acts : Forall (passes e) (CleanupAction <$> acts).
Proof. induction acts; constructor; done. Qed.

(** X2: When [callback] is called with a falsy error (or with no argument)
    and nothing else is queued, the unwind ticks pop the frames from the
    top: cleanup actions run, error steps are dropped and their handlers
    are not entered; below them the stack is as before.  When these were
    all the frames, the next tick completes the driver with the
    arguments of [callback]. *)
Theorem callback_unwinds_past_handlers
    (fn : State -> list value -> list value -> list cmd)
    (w : World) (a : list value) (base fs : list frame)
    (Hq : ticks w = [])
    (Hu : unwinding (st w) = base ++ fs)
    (Hp : Forall (passes (default VUndefined (head a))) fs) :
  let w1 := SM.run fn (SM.ICall (CCallback a) :: replicate (length fs) SM.ITick) w in
  trace w1 = trace w ++ concat (frame_events <$> reverse fs)
  /\ unwinding (st w1) = base /\ ticks w1 = [boundUnwind]
  /\ same_registers (SM.callback a w) w1
  /\ (base = [] -> isFinished (st w) = false -> finalCallback (machine w) = true ->
      trace (SM.run fn [SM.ITick] w1)
        = trace w ++ concat (frame_events <$> reverse fs) ++ [EvFinal a]
      /\ isFinished (st (SM.run fn [SM.ITick] w1)) = true
      /\ ticks (SM.run fn [SM.ITick] w1) = []).
Proof.
  intros w1.
  change w1 with (SM.run fn (replicate (length fs) SM.ITick) (SM.callback a w)) in *.
  destruct (run_unwind_passes fn fs (SM.callback a w) base) as (T & U & Q & R);
    [exact Hu|by cbn; rewrite Hq|exact Hp|].
  clear w1. set (w1 := SM.run fn _ _) in *.
  split_and!; try done.
  intros -> Hf Hc. destruct R as (Ra & _ & _ & _ & _ & _ & Rf & _ & Rc & _).
  assert (SM.run fn [SM.ITick] w1
          = emit (EvFinal a)
              (upd (fun s => set_isFinished true (set_waiting 0 s)) (set_ticks [] w1))) as ->.
  { change (SM.run fn [SM.ITick] w1) with (SM.run_tick fn w1).
    rewrite (run_tick_unwind fn w1 []) by done.
    rewrite (unwind_finish (set_ticks [] w1)).
    - change (st (set_ticks [] w1)) with (st w1). by rewrite Ra.
    - exact U.
    - change (st (set_ticks [] w1)) with (st w1). by rewrite Rf.
    - change (machine (set_ticks [] w1)) with (machine w1). by rewrite Rc. }
  simpl. by rewrite T, <- app_assoc.
Qed.

Lemma callback_unwinds_past_handlers_witness :
  let a1 := mkAction 1 [] in
  let fs := [ErrorStep 5; CleanupAction a1; ErrorStep 9] in
  let w := SM.run idle [SM.ICall (CPushErrorStep 5); SM.ICall (CPushCleanupAction a1);
                        SM.ICall (CPushErrorStep 9)] (World_new true) in
  let w1 := SM.run idle (SM.ICall (CCallback []) :: replicate 3 SM.ITick) w in
  unwinding (st w) = [] ++ fs
  /\ Forall (passes (default VUndefined (head []))) fs
  /\ trace (SM.run idle [SM.ITick] w1) = [EvAction a1; EvFinal []].
Proof.
  intros a1 fs w w1.
  assert (Forall (passes (default VUndefined (head []))) fs) as Hp
    by (repeat constructor).
  split; [reflexivity|]. split; [exact Hp|].
  destruct (callback_unwinds_past_handlers idle w [] [] fs eq_refl eq_refl Hp)
    as (_ & _ & _ & _ & H).
  destruct (H eq_refl eq_refl eq_refl) as (T & _).
  etrans; [exact T|]. reflexivity.
Defined.

(** X3: When [callback] is called with a truthy error and the topmost error
    step has only cleanup actions above it, the unwind ticks run these
    actions, last registered first, pop the error step and go to its
    handler: the frames below stay, the final callback is not called, and
    the step tick enters the step function with the arguments of
    [callback]. *)
Theorem callback_error_reaches_handler
    (fn : State -> list value -> list value -> list cmd)
    (w : World) (a : list value) (h : Z) (acts : list action) (base : list frame)
    (Hq : ticks w = [])
    (He : truthy (default VUndefined (head a)) = true)
    (Hu : unwinding (st w) = base ++ ErrorStep h :: (CleanupAction <$> acts)) :
  let w1 := SM.run fn (SM.ICall (CCallback a)
                         :: replicate (length acts) SM.ITick ++ [SM.ITick]) w in
  trace w1 = trace w ++ (EvAction <$> reverse acts)
  /\ unwinding (st w1) = base /\ ticks w1 = [boundStep]
  /\ id (st w1) = VNum h /\ args (st w1) = a
  /\ waiting (st w1) = waiting (st w) + 1
  /\ isFinished (st w1) = isFinished (st w)
  /\ (truthy (abort_with_error (st w)) = false ->
      (trace w ++ (EvAction <$> reverse acts) ++ [EvFn a])
        `prefix_of` trace (SM.run fn [SM.ITick] w1)).
Proof.
  intros w1.
  assert (w1 = SM.run_tick fn
                 (SM.run fn (replicate (length (CleanupAction <$> acts)) SM.ITick)
                    (SM.callback a w))) as Hw1.
  { subst w1. rewrite length_fmap.
    change (SM.run fn (SM.ICall (CCallback a) :: ?l) w) with (SM.run fn l (SM.callback a w)).
    by rewrite run_app. }
  destruct (run_unwind_passes fn (CleanupAction <$> acts) (SM.callback a w)
              (base ++ [ErrorStep h])) as (T & U & Q & R).
  { cbn. fold (st w). by rewrite Hu, <- app_assoc. }
  { by cbn; rewrite Hq. }
  { apply passes_actions. }
  set (w0 := SM.run fn _ (SM.callback a w)) in *.
  destruct R as (Ra & Re & _ & Rw & _ & _ & Rf & Rb & _).
  assert (w1 = SM.goTo (VNum h)
                 (upd (fun s => set_isUnwinding true (set_unwinding base s))
                      (set_ticks [] w0))) as ->.
  { rewrite Hw1, (run_tick_unwind fn w0 []) by done.
    rewrite (unwind_error_top (set_ticks [] w0) base h) by exact U.
    change (st (set_ticks [] w0)) with (st w0). rewrite Re.
    change (err (st (SM.callback a w))) with (default VUndefined (head a)).
    by rewrite He. }
  rewrite <- fmap_reverse, frame_events_actions in T.
  split; [exact T|]. split; [reflexivity|]. split; [reflexivity|].
  split; [reflexivity|].
  split; [change (args (st w0) = a); by rewrite Ra|].
  split; [change (waiting (st w0) + 1 = waiting (st w) + 1); by rewrite Rw|].
  split; [change (isFinished (st w0) = isFinished (st w)); by rewrite Rf|].
  - intros Hab.
    change (SM.run fn [SM.ITick] ?v) with (SM.run_tick fn v).
    rewrite (run_tick_step fn _ []) by done.
    rewrite step_plain;
      [|change (truthy (abort_with_error (st w0)) = false); by rewrite Rb].
    match goal with
    | |- _ `prefix_of` trace (SM.uncaught (SM.call_fn fn ?ar ?v)) =>
        assert (ar = a) as -> by (change (args (st w0) = a); by rewrite Ra);
        pose proof (trace_call_fn fn a v) as P;
        change (trace v) with (trace w0) in P;
        destruct (SM.call_fn fn a v) as [[e|] v']
    end.
    all: rewrite T in P; change (trace (SM.callback a w)) with (trace w) in P.
    all: rewrite <- app_assoc in P; simpl.
    + etrans; [exact P|]. by eexists.
    + exact P.
Qed.

Lemma callback_error_reaches_handler_witness :
  let a1 := mkAction 1 [] in
  let w := SM.run idle [SM.ICall (CPushErrorStep 3); SM.ICall (CPushErrorStep 5);
                        SM.ICall (CPushCleanupAction a1)] (World_new true) in
  let w1 := SM.run idle (SM.ICall (CCallback [VError "boom"])
                           :: replicate 1 SM.ITick ++ [SM.ITick]) w in
  unwinding (st w) = [ErrorStep 3] ++ ErrorStep 5 :: (CleanupAction <$> [a1])
  /\ trace w1 = [EvAction a1]
  /\ unwinding (st w1) = [ErrorStep 3]
  /\ id (st w1) = VNum 5.
Proof.
  intros a1 w w1. split; [reflexivity|].
  destruct (callback_error_reaches_handler idle w [VError "boom"] 5 [a1] [ErrorStep 3]
              eq_refl eq_refl eq_refl) as (T & U & _ & I & _).
  split; [etrans; [exact T|reflexivity]|]. split; [exact U|exact I].
Defined.

(** X4: A cleanup step registered with [pushCleanupStep(i)] keeps the state
    variables of that moment: whatever they became since, and whatever
    [callback] is called with, the unwind tick that pops the frame puts
    them back and goes to step [i].  Without a [captureStateVars]
    function, [pushCleanupStep] throws and registers nothing. *)
Theorem cleanup_step_restores
    (fn : State -> list value -> list value -> list cmd)
    (w : World) (i : Z) (vs : list value) (a : list value) :
  (ticks w = [] -> captureStateVars (machine w) = true ->
   restoreStateVars (machine w) = true ->
   let w1 := SM.run fn [SM.ICall (CPushCleanupStep i); SM.ICall (CSetLocals vs);
                        SM.ICall (CCallback a); SM.ITick] w in
   locals w1 = locals w /\ id (st w1) = VNum i
   /\ unwinding (st w1) = unwinding (st w) /\ ticks w1 = [boundStep]
   /\ args (st w1) = a /\ trace w1 = trace w
   /\ isFinished (st w1) = isFinished (st w))
  /\ (captureStateVars (machine w) = false ->
      SM.run fn [SM.ICall (CPushCleanupStep i)] w = emit (EvThrow TypeError) w).
Proof.
  split.
  - intros Hq Hc Hr w1.
    assert (w1 = SM.goTo (VNum i)
                   (set_locals (locals w)
                      (upd (fun s => set_isUnwinding true (set_unwinding (unwinding (st w)) s))
                         (set_ticks []
                            (SM.callback a (set_locals vs
                               (upd (fun s => set_unwinding
                                        (unwinding s ++ [CleanupStep i (locals w)]) s) w)))))))
      as ->; [|by repeat split].
    subst w1.
    change (SM.run fn [SM.ICall (CPushCleanupStep i); SM.ICall (CSetLocals vs);
                       SM.ICall (CCallback a); SM.ITick] w)
      with (SM.run_tick fn
              (SM.callback a (set_locals vs (SM.uncaught (SM.pushCleanupStep i w))))).
    unfold SM.pushCleanupStep. rewrite Hc. cbn [SM.uncaught].
    rewrite (run_tick_unwind fn _ []) by (by cbn; rewrite Hq).
    unfold SM.unwind.
    match goal with
    | |- context [pop (unwinding (st ?v))] =>
        change (unwinding (st v)) with (unwinding (st w) ++ [CleanupStep i (locals w)])
    end.
    rewrite pop_snoc.
    match goal with
    | |- context [restoreStateVars (machine ?v)] =>
        change (restoreStateVars (machine v)) with (restoreStateVars (machine w))
    end.
    by rewrite Hr.
  - intros Hc. change (SM.run fn [SM.ICall (CPushCleanupStep i)] w)
      with (SM.uncaught (SM.pushCleanupStep i w)).
    unfold SM.pushCleanupStep. by rewrite Hc.
Qed.

Lemma cleanup_step_restores_witness :
  let w := SM.run idle [SM.ICall CInstallStateVars; SM.ICall (CSetLocals [VNum 1])]
             (World_new true) in
  let w1 := SM.run idle [SM.ICall (CPushCleanupStep 4); SM.ICall (CSetLocals [VNum 2]);
                         SM.ICall (CCallback [VError "boom"]); SM.ITick] w in
  locals w = [VNum 1] /\ locals w1 = [VNum 1] /\ id (st w1) = VNum 4
  /\ SM.run idle [SM.ICall (CPushCleanupStep 4)] (World_new true)
     = emit (EvThrow TypeError) (World_new true).
Proof.
  intros w w1. split; [reflexivity|].
  destruct (cleanup_step_restores idle w 4 [VNum 2] [VError "boom"]) as [H _].
  destruct (H eq_refl eq_refl eq_refl) as (L & I & _).
  destruct (cleanup_step_restores idle (World_new true) 4 [] []) as [_ H2].
  split; [etrans; [exact L|reflexivity]|]. split; [exact I|]. exact (H2 eq_refl).
Defined.

(** ** The whole life of a driver *)

(** X1: Whatever compiled code, operations and the outside do with a new
    driver, its final callback is called at most once; it is called only
    when one was given, and only by the transition that sets
    [isFinished], which is never reset. *)
Theorem final_callback_at_most_once
    (fn : State -> list value -> list value -> list cmd)
    (callback : bool) (inputs more : list SM.input) :
  let w := SM.run fn inputs (World_new callback) in
  (length (finals (trace w)) <= 1)%nat
  /\ (finals (trace w) <> [] -> isFinished (st w) = true /\ callback = true)
  /\ (isFinished (st w) = true ->
      isFinished (st (SM.run fn more w)) = true
      /\ finals (trace (SM.run fn more w)) = finals (trace w)).
Proof.
  intros w.
  assert (reachable fn w) as Hr by (by exists callback, inputs).
  destruct (reachable_inv fn w Hr) as (_ & U & L).
  split; [exact L|]. split.
  - intros Hne. split; [destruct (isFinished (st w)); [done|by destruct Hne; apply U]|].
    subst w. clear U L Hr. revert Hne. induction inputs as [|i inputs IH] using rev_ind.
    + by intros [].
    + rewrite run_app. change (SM.run fn [i] ?v) with (SM.react fn i v).
      destruct (evolves_react fn i (SM.run fn inputs (World_new callback)))
        as [_ A _ _ _].
      destruct (evolves_run fn inputs (World_new callback)) as [_ _ C _ _].
      destruct A as [E|(_ & _ & Hc & _)]; [rewrite E; exact IH|].
      intros _. by rewrite <- Hc, C.
  - intros Hf. destruct (finals_frozen fn w more Hf) as [E F]. by split.
Qed.

Section Calls.

Variable fn : State -> list value -> list value -> list cmd.

(** X9: [callback] called twice before its unwind tick runs: on an empty
    unwind stack the driver completes once, with the arguments of the
    second call, and the second unwind tick does nothing. *)
Theorem callback_last_wins (w : World) (a b : list value)
    (Hs : unwinding (st w) = []) (Hf : isFinished (st w) = false)
    (Hc : finalCallback (machine w) = true) (Hq : ticks w = []) :
  let w1 := SM.run fn [SM.ICall (CCallback a); SM.ICall (CCallback b); SM.ITick] w in
  trace w1 = trace w ++ [EvFinal b]
  /\ isFinished (st w1) = true
  /\ ticks w1 = [boundUnwind]
  /\ SM.run fn [SM.ITick] w1 = set_ticks [] w1.
Proof.
  destruct w as [[s fc cv rv cj] q cl tb lo tr].
  destruct s as [i0 a0 e0 u0 p0 ic0 wt0 f0 iu0 ab0]. simpl in Hs, Hf, Hc, Hq. subst.
  split_and!; vm_compute; reflexivity.
Qed.

(** X6: With no abort pending, the first call of the continuation made by
    [thenTo(i)] enters the step function at once, at [state.id = i], with
    the arguments of the call and with [waiting] back to what it was
    before [thenTo]; the arguments are not stored in [state.args]. *)
Theorem thenTo_resumes (w : World) (i : Z) (a : list value)
    (Ha : truthy (abort_with_error (st w)) = false) :
  SM.run fn [SM.ICall (CThenTo i); SM.IInvoke (length (closures w)) a] w
  = SM.uncaught
      (SM.call_fn fn a
         (upd (set_id (VNum i))
            (set_closures (closures w ++ [mkContinuation i true]) w))).
Proof.
  change (SM.run fn [SM.ICall (CThenTo i); SM.IInvoke (length (closures w)) a] w)
    with (SM.uncaught (SM.continuation fn (length (closures w)) a (SM.thenTo i w).2)).
  unfold SM.continuation.
  change (closures (SM.thenTo i w).2) with (closures w ++ [mkContinuation i false]).
  rewrite lookup_app_r, Nat.sub_diag by done. cbn [lookup list_lookup].
  change (truthy (abort_with_error (st (upd ?f (SM.thenTo i w).2))))
    with (truthy (abort_with_error (st w))).
  rewrite Ha. cbn [done negb target].
  f_equal. f_equal.
  destruct w as [[s fc cv rv cj] q cl tb lo tr].
  destruct s as [i0 a0 e0 u0 p0 ic0 wt0 f0 iu0 ab0].
  cbv -[Z.add Z.sub app length insert]. rewrite Z.add_simpl_r. do 2 f_equal.
  change (<[length cl := mkContinuation i true]> (cl ++ [mkContinuation i false])
          = cl ++ [mkContinuation i true]).
  by rewrite (insert_app_r_alt _ _ _ _ (le_n _)), Nat.sub_diag.
Qed.

(** X7: [abort(e)] with a falsy [e] ([undefined], [null], [0], the empty
    string, [false]) on a waiting driver only overwrites
    [abort_with_error]: the next [step()] enters the step function with
    the stored [args]. *)
Theorem abort_falsy_ignored (w : World) (e : value)
    (He : truthy e = false) (Hw : 0 < waiting (st w)) :
  SM.step fn (SM.abort e w)
  = SM.call_fn fn (args (st w))
      (upd (fun s => set_abort_with_error e (set_waiting (waiting s - 1) s)) w).
Proof.
  unfold SM.abort. rewrite (proj2 (Z.ltb_lt _ _) Hw).
  by rewrite step_plain.
Qed.

End Calls.

Lemma goTo_resumes_witness :
  let w := World_new true in
  ticks w = [] /\ truthy (abort_with_error (st w)) = false
  /\ trace (SM.run idle [SM.ICall (CGoTo 3); SM.ITick] w) = [EvFn [VNull; VNull]]
  /\ id (st (SM.run idle [SM.ICall (CGoTo 3); SM.ICall (CGoTo 4); SM.ITick] w)) = VNum 4.
Proof.
  intros w. split; [reflexivity|]. split; [reflexivity|].
  destruct (goTo_resumes idle w 3 4 eq_refl eq_refl) as (E1 & E2 & _).
  split; [rewrite E1|rewrite E2]; reflexivity.
Defined.

Lemma callback_last_wins_witness :
  let w := World_new true in
  unwinding (st w) = [] /\ isFinished (st w) = false
  /\ trace (SM.run idle [SM.ICall (CCallback [VError "first"]);
                         SM.ICall (CCallback [VNull; VStr "second"]); SM.ITick] w)
     = [EvFinal [VNull; VStr "second"]].
Proof.
  intros w. split; [reflexivity|]. split; [reflexivity|].
  destruct (callback_last_wins idle w [VError "first"] [VNull; VStr "second"]
              eq_refl eq_refl eq_refl eq_refl) as (T & _).
  exact T.
Defined.

Lemma thenTo_resumes_witness :
  let w := World_new true in
  let w1 := SM.run idle [SM.ICall (CThenTo 7); SM.IInvoke 0 [VNull; VStr "r"]] w in
  truthy (abort_with_error (st w)) = false
  /\ trace w1 = [EvFn [VNull; VStr "r"]] /\ id (st w1) = VNum 7
  /\ args (st w1) = [VNull; VNull] /\ waiting (st w1) = 0.
Proof.
  intros w w1. split; [reflexivity|].
  pose proof (thenTo_resumes idle w 7 [VNull; VStr "r"] eq_refl) as E.
  change (w1 = SM.uncaught (SM.call_fn idle [VNull; VStr "r"]
                (upd (set_id (VNum 7))
                   (set_closures (closures w ++ [mkContinuation 7 true]) w)))) in E.
  rewrite E. repeat split.
Defined.

Lemma abort_falsy_ignored_witness :
  let w := SM.run idle [SM.ICall CStart] (World_new true) in
  truthy VUndefined = false /\ 0 < waiting (st w)
  /\ trace (SM.step idle (SM.abort VUndefined w)).2 = [EvFn [VNull; VNull]].
Proof.
  intros w. split; [reflexivity|].
  assert (0 < waiting (st w)) as Hw by (cbn; lia).
  split; [exact Hw|].
  rewrite (abort_falsy_ignored idle w VUndefined eq_refl Hw). reflexivity.
Defined.

(** ** What the methods leave alone *)

(** X18: No call of compiled code on the driver enters the step function or
    calls the final callback while it runs: these happen in ticks and in
    continuations only.  All a call can print is a failed assertion. *)
Theorem calls_are_deferred (c : cmd) (w : World) :
  entries (trace (SM.exec_cmd c w).2) = entries (trace w)
  /\ finals (trace (SM.exec_cmd c w).2) = finals (trace w)
  /\ (trace (SM.exec_cmd c w).2 = trace w
      \/ trace (SM.exec_cmd c w).2 = trace w ++ [EvLog "Assertion failed"]).
Proof.
  pose proof (trace_exec_cmd c w) as H. split_and!; [| |exact H].
  - destruct H as [-> | ->]; [done|]. unfold entries. rewrite omap_app. simpl.
    by rewrite app_nil_r.
  - destruct H as [-> | ->]; [done|]. by rewrite finals_snoc, app_nil_r.
Qed.

Lemma keeps_result_refl w : keeps_result w w.
Proof. by left. Qed.

Lemma keeps_result_trans w1 w2 w3 :
  keeps_result w1 w2 -> keeps_result w2 w3 -> keeps_result w1 w3.
Proof.
  intros [[A1 E1]|H1] [[A2 E2]|H2].
  - left. split; congruence.
  - by right.
  - right. by rewrite E2, A2.
  - by right.
Qed.

Ltac result_kept := left; split; reflexivity.

Lemma keeps_result_unwind w : keeps_result w (SM.unwind w).2.
Proof.
  unfold SM.unwind. destruct (pop (unwinding (st w))) as [[[h|a|h vs] rest]|].
  - destruct (truthy _); result_kept.
  - result_kept.
  - destruct (restoreStateVars _); result_kept.
  - destruct (negb _); [|result_kept]. destruct (finalCallback _); result_kept.
Qed.

Lemma keeps_result_exec_cmd c w : keeps_result w (SM.exec_cmd c w).2.
Proof.
  destruct c; simpl; try result_kept.
  - by right.
  - unfold SM.pushCleanupStep. destruct (captureStateVars _); result_kept.
  - unfold SM.pushErrorStep. destruct (_ !! _) as [[|]|]; result_kept.
  - unfold SM.phi. destruct (pop _) as [[? ?]|]; result_kept.
  - unfold SM.jumpTable, SM.jumpToCase.
    repeat (case_match; simplify_eq/=); result_kept.
  - unfold SM.abort. destruct (Z.ltb _ _); [result_kept|by right].
Qed.

Lemma keeps_result_exec cs : forall w, keeps_result w (SM.exec cs w).2.
Proof.
  induction cs as [|c cs IH]; intros w; simpl; [apply keeps_result_refl|].
  pose proof (keeps_result_exec_cmd c w) as H.
  destruct (SM.exec_cmd c w) as [[e|] w1]; simpl in *; [done|].
  eapply keeps_result_trans; [exact H|apply IH].
Qed.

Section Result.

Variable fn : State -> list value -> list value -> list cmd.

Lemma keeps_result_call_fn a w : keeps_result w (SM.call_fn fn a w).2.
Proof. unfold SM.call_fn. exact (keeps_result_exec _ (emit (EvFn a) w)). Qed.

Ltac result_by_call_fn :=
  match goal with
  | |- keeps_result _ (SM.call_fn _ ?a ?v).2 => exact (keeps_result_call_fn a v)
  end.

Lemma keeps_result_react i w : keeps_result w (SM.react fn i w).
Proof.
  assert (forall v r, keeps_result v r.2 -> keeps_result v (SM.uncaught r)) as Hu.
  { intros v [[e|] v1]; simpl; [|done]. intros [H|H]; [by left|by right]. }
  destruct i; simpl.
  - unfold SM.run_tick. destruct (ticks w) as [|[|] q]; [apply keeps_result_refl|..];
      apply Hu.
    + unfold SM.step. destruct (truthy _); result_by_call_fn.
    + exact (keeps_result_unwind (set_ticks q w)).
  - apply Hu. unfold SM.continuation. destruct (closures w !! k) as [c|]; [|by left].
    destruct (truthy _); [result_by_call_fn|].
    destruct (negb _); [result_by_call_fn|result_kept].
  - apply Hu, keeps_result_exec_cmd.
Qed.

(** X10: In every state a new driver can reach, [err] is the first of [args]
    (or [undefined] when [args] is empty): so [unwindNextTick()] does
    what [callback] called again with the stored arguments would do. *)
Theorem unwindNextTick_is_callback (callback : bool) (inputs : list SM.input) :
  let w := SM.run fn inputs (World_new callback) in
  err (st w) = default VUndefined (head (args (st w)))
  /\ SM.unwindNextTick w = SM.callback (args (st w)) w.
Proof.
  intros w.
  assert (err (st w) = default VUndefined (head (args (st w)))) as H.
  { subst w. induction inputs as [|i inputs IH] using rev_ind; [done|].
    rewrite run_app. change (SM.run fn [i] ?v) with (SM.react fn i v).
    destruct (keeps_result_react i (SM.run fn inputs (World_new callback)))
      as [[A E]|E]; [by rewrite E, A|exact E]. }
  split; [exact H|]. unfold SM.unwindNextTick, SM.callback. rewrite <- H.
  destruct (w) as [[s fc cv rv cj] q cl tb lo tr]. by destruct s.
Qed.

End Result.

Section Finished.

Variable fn : State -> list value -> list value -> list cmd.

(** X8: Completing resets [waiting] to [0] whatever was outstanding, so
    [isWaiting] reads false and [isFinished] true; a continuation that is
    still outstanding is not cancelled: when it is called, it enters the
    step function of the finished driver, with [waiting] at [-1]. *)
Theorem completion_cancels_nothing (w : World) (a b : list value) (k : nat)
    (c : Continuation)
    (Hs : unwinding (st w) = []) (Hf : isFinished (st w) = false) (Hq : ticks w = [])
    (Hk : closures w !! k = Some c) (Hd : done c = false)
    (Ha : truthy (abort_with_error (st w)) = false) :
  let w1 := SM.run fn [SM.ICall (CCallback a); SM.ITick] w in
  SM.isFinished w1 = true /\ SM.isWaiting w1 = false /\ waiting (st w1) = 0
  /\ exists v, SM.run fn [SM.IInvoke k b] w1 = SM.uncaught (SM.call_fn fn b v)
        /\ isFinished (st v) = true /\ waiting (st v) = -1
        /\ id (st v) = VNum (target c).
Proof.
  destruct w as [[s fc cv rv cj] q cl tb lo tr].
  destruct s as [i0 a0 e0 u0 p0 ic0 wt0 f0 iu0 ab0]. simpl in Hs, Hf, Hq, Hk, Ha. subst.
  intros w1.
  assert (closures w1 !! k = Some c /\ truthy (abort_with_error (st w1)) = false
          /\ isFinished (st w1) = true /\ waiting (st w1) = 0) as (Hk1 & Ha1 & Hf1 & Hw1).
  { subst w1. by destruct fc. }
  split; [exact Hf1|]. split; [unfold SM.isWaiting; by rewrite Hw1|]. split; [exact Hw1|].
  change (SM.run fn [SM.IInvoke k b] w1) with (SM.uncaught (SM.continuation fn k b w1)).
  unfold SM.continuation. rewrite Hk1.
  change (truthy (abort_with_error (st (upd ?f w1))))
    with (truthy (abort_with_error (st w1))).
  rewrite Ha1, Hd. cbn [negb]. eexists. split; [reflexivity|].
  split; [exact Hf1|]. split; [|reflexivity].
  change (waiting (st w1) - 1 = -1). by rewrite Hw1.
Qed.

End Finished.

Lemma completion_cancels_nothing_witness :
  let w := SM.run idle [SM.ICall (CThenTo 7)] (World_new true) in
  let w1 := SM.run idle [SM.ICall (CCallback [VNull]); SM.ITick] w in
  closures w !! 0%nat = Some (mkContinuation 7 false)
  /\ SM.isWaiting w = true /\ SM.isWaiting w1 = false
  /\ trace (SM.run idle [SM.IInvoke 0 [VNull; VStr "late"]] w1)
     = [EvFinal [VNull]; EvFn [VNull; VStr "late"]].
Proof.
  intros w w1. split; [reflexivity|]. split; [reflexivity|].
  destruct (completion_cancels_nothing idle w [VNull] [VNull; VStr "late"] 0
              (mkContinuation 7 false) eq_refl eq_refl eq_refl eq_refl eq_refl eq_refl)
    as (_ & W & _).
  split; [exact W|reflexivity].
Defined.
